(** * elec_n: the electrostatics engine of [src/utils/physics.ts]

    A shallow embedding of the field, potential, force, grid-snap and
    integration functions, followed by the properties stated about them.

    Numbers.  A JavaScript [number] is modelled as a real number of the
    Standard Library: [+], [-], [*], [/], [Math.sqrt], [Math.cos],
    [Math.sin] and [Math.PI] are the exact operations on [R].  Rounding,
    overflow, infinities and NaN are outside this model; no statement below
    depends on the value of a division by zero.

    Vectors.  [Vector3] is the three.js class.  Its methods mutate the
    receiver and return it; every call in [physics.ts] is made on a fresh
    vector or on a clone, so each method is modelled as a function that
    returns the new value. *)

From Stdlib Require Import Reals Lra Lia List String Bool ZArith.
Import ListNotations.

Open Scope R_scope.

(** JavaScript [n || d] on numbers: [d] when [n] is [0]. *)
Definition numberOr (n d : R) : R :=
  if Req_dec_T n 0 then d else n.

(** ** three.js vectors *)

Module Vector3.

Record t : Type := mk { x : R; y : R; z : R }.

Definition zero : t := mk 0 0 0.

(** [new Vector3().subVectors(a, b)] *)
Definition subVectors (a b : t) : t :=
  mk (x a - x b) (y a - y b) (z a - z b).

(** [a.add(b)] *)
Definition add (a b : t) : t :=
  mk (x a + x b) (y a + y b) (z a + z b).

(** [a.multiplyScalar(s)] *)
Definition multiplyScalar (a : t) (s : R) : t :=
  mk (x a * s) (y a * s) (z a * s).

(** [a.divideScalar(s)] is [a.multiplyScalar(1 / s)] in three.js. *)
Definition divideScalar (a : t) (s : R) : t :=
  multiplyScalar a (1 / s).

(** [a.length()] *)
Definition length (a : t) : R :=
  sqrt (x a * x a + y a * y a + z a * z a).

(** [a.normalize()] is [a.divideScalar(a.length() || 1)] in three.js. *)
Definition normalize (a : t) : t :=
  divideScalar a (numberOr (length a) 1).

(** [a.distanceTo(b)] *)
Definition distanceTo (a b : t) : R :=
  let dx := x a - x b in
  let dy := y a - y b in
  let dz := z a - z b in
  sqrt (dx * dx + dy * dy + dz * dz).

(** [a.clone()] and [a.copy(b)]: values are immutable here. *)
Definition clone (a : t) : t := a.

End Vector3.

Abbreviation Vector3 := Vector3.t.

(** ** [src/types.ts] *)

Inductive ChargeType : Type :=
  | POINT
  | RING
  | SPHERE_CONDUCTING
  | SPHERE_NON_CONDUCTING.

Record ChargeObject : Type := mkCharge {
  id : string;
  type : ChargeType;
  position : Vector3;
  q : R;
  radius : R;
  draggable : option bool;
  mass : option R;
  velocity : option Vector3;
  isFixed : option bool
}.

Record VectorResult : Type := mkResult {
  vector : Vector3;
  magnitude : R
}.

(** Truthiness of an optional boolean field ([if (c.isFixed)]). *)
Definition truthy (b : option bool) : bool :=
  match b with
  | Some true => true
  | _ => false
  end.

(** [type.includes('SPHERE')] on the four tags. *)
Definition includesSPHERE (ty : ChargeType) : bool :=
  match ty with
  | SPHERE_CONDUCTING | SPHERE_NON_CONDUCTING => true
  | _ => false
  end.

(** ** [getFieldFromObject] *)

(** Position of sample [i] of [samples] on a ring: the loop bodies of the
    three ring discretisations compute it the same way. *)
Definition ringSamplePos (center : Vector3) (rad : R) (samples i : nat)
    : Vector3 :=
  let theta := (INR i / INR samples) * PI * 2 in
  let dx := cos theta * rad in
  let dz := sin theta * rad in
  Vector3.mk (Vector3.x center + dx) (Vector3.y center) (Vector3.z center + dz).

(** [eField.copy(rVec).normalize().multiplyScalar(magnitude)] *)
Definition radial (rVec : Vector3) (magnitude : R) : Vector3 :=
  Vector3.multiplyScalar (Vector3.normalize rVec) magnitude.

(** One iteration of the RING loop of [getFieldFromObject]: the new value of
    [eField]. *)
Definition ringFieldStep (pos : Vector3) (charge : ChargeObject) (k : R)
    (SAMPLES : nat) (eField : Vector3) (i : nat) : Vector3 :=
  let dQ := q charge / INR SAMPLES in
  let samplePos := ringSamplePos (position charge) (radius charge) SAMPLES i in
  let rSample := Vector3.subVectors pos samplePos in
  let dR := Vector3.length rSample in
  if Rgt_dec dR 0.1 then
    let dE := (k * dQ) / (dR * dR) in
    Vector3.add eField (Vector3.multiplyScalar (Vector3.normalize rSample) dE)
  else eField.

Definition getFieldFromObject (pos : Vector3) (charge : ChargeObject) (k : R)
    : Vector3 :=
  let rVec := Vector3.subVectors pos (position charge) in
  let dist := Vector3.length rVec in
  let eField := Vector3.zero in
  if Rlt_dec dist 0.05 then eField else
  match type charge with
  | POINT =>
      let magnitude := (k * q charge) / (dist * dist) in
      radial rVec magnitude
  | SPHERE_CONDUCTING =>
      if Rge_dec dist (radius charge) then
        let magnitude := (k * q charge) / (dist * dist) in
        radial rVec magnitude
      else Vector3.zero
  | SPHERE_NON_CONDUCTING =>
      if Rge_dec dist (radius charge) then
        let magnitude := (k * q charge) / (dist * dist) in
        radial rVec magnitude
      else
        let magnitude :=
          (k * q charge * dist)
          / (radius charge * radius charge * radius charge) in
        radial rVec magnitude
  | RING =>
      let SAMPLES := 40%nat in
      fold_left (ringFieldStep pos charge k SAMPLES) (seq 0 SAMPLES) eField
  end.

(** ** [calculateElectricField] *)

Definition calculateElectricField (pos : Vector3) (charges : list ChargeObject)
    (k : R) : VectorResult :=
  let totalE :=
    fold_left (fun totalE charge =>
                 Vector3.add totalE (getFieldFromObject pos charge k))
              charges Vector3.zero in
  mkResult (Vector3.clone totalE) (Vector3.length totalE).

(** ** [calculatePotential] *)

(** One iteration of the RING loop of [calculatePotential]. *)
Definition ringPotentialStep (pos : Vector3) (charge : ChargeObject) (k : R)
    (SAMPLES : nat) (potential : R) (i : nat) : R :=
  let dQ := q charge / INR SAMPLES in
  let samplePos := ringSamplePos (position charge) (radius charge) SAMPLES i in
  let d := Vector3.distanceTo pos samplePos in
  if Rgt_dec d 0.05 then potential + (k * dQ) / d else potential.

(** The callback of [charges.forEach]: the new value of [potential]. *)
Definition potentialStep (pos : Vector3) (k : R) (potential : R)
    (charge : ChargeObject) : R :=
  let dist := Vector3.distanceTo pos (position charge) in
  if Rlt_dec dist 0.05 then potential else
  match type charge with
  | POINT => potential + (k * q charge) / dist
  | SPHERE_CONDUCTING =>
      if Rge_dec dist (radius charge) then potential + (k * q charge) / dist
      else potential + (k * q charge) / radius charge
  | SPHERE_NON_CONDUCTING =>
      if Rge_dec dist (radius charge) then potential + (k * q charge) / dist
      else
        let term := 3 - (dist * dist) / (radius charge * radius charge) in
        potential + ((k * q charge) / (2 * radius charge)) * term
  | RING =>
      let SAMPLES := 30%nat in
      fold_left (ringPotentialStep pos charge k SAMPLES) (seq 0 SAMPLES)
                potential
  end.

Definition calculatePotential (pos : Vector3) (charges : list ChargeObject)
    (k : R) : R :=
  fold_left (potentialStep pos k) charges 0.

(** ** [calculateNetForce] *)

(** The function is written over the field evaluator it calls, [field];
    [calculateNetForce] is its instance at [calculateElectricField].  A
    result that is the same for every [field] is one that no call of the
    evaluator produced. *)
Section NetForce.
Variable field : Vector3 -> list ChargeObject -> R -> VectorResult.

(** One iteration of the RING loop of [calculateNetForce]. *)
Definition ringForceStepWith (target : ChargeObject)
    (otherCharges : list ChargeObject) (k : R) (SAMPLES : nat)
    (totalForce : Vector3) (i : nat) : Vector3 :=
  let dQ := q target / INR SAMPLES in
  let samplePos := ringSamplePos (position target) (radius target) SAMPLES i in
  let eAtSample := field samplePos otherCharges k in
  Vector3.add totalForce (Vector3.multiplyScalar (vector eAtSample) dQ).

(** [allCharges.filter(c => c.id !== target.id)] *)
Definition otherChargesOf (target : ChargeObject)
    (allCharges : list ChargeObject) : list ChargeObject :=
  filter (fun c => negb (String.eqb (id c) (id target))) allCharges.

Definition calculateNetForceWith (target : ChargeObject)
    (allCharges : list ChargeObject) (k : R) : VectorResult :=
  let otherCharges := otherChargesOf target allCharges in
  let totalForce := Vector3.zero in
  if Nat.eqb (List.length otherCharges) 0 then mkResult totalForce 0 else
  let totalForce :=
    if orb (match type target with POINT => true | _ => false end)
           (includesSPHERE (type target))
    then
      let eField := field (position target) otherCharges k in
      Vector3.multiplyScalar (vector eField) (q target)
    else
      match type target with
      | RING =>
          let SAMPLES := 20%nat in
          fold_left (ringForceStepWith target otherCharges k SAMPLES)
                    (seq 0 SAMPLES) totalForce
      | _ => totalForce
      end in
  mkResult totalForce (Vector3.length totalForce).

End NetForce.

Definition calculateNetForce : ChargeObject -> list ChargeObject -> R
    -> VectorResult :=
  calculateNetForceWith calculateElectricField.

(** ** [snapToGrid] *)

(** [Math.round]: the nearest integer, a tie going to the larger one. *)
Definition Math_round (r : R) : R := IZR (Int_part (r + / 2)).

Definition snapToGrid (pos : Vector3) (step : R) : Vector3 :=
  Vector3.mk (Math_round (Vector3.x pos / step) * step)
             (Math_round (Vector3.y pos / step) * step)
             (Math_round (Vector3.z pos / step) * step).

(** ** [updateChargeDynamics] *)

(** [charges.map((c, i) => ...)]: map with the index. *)
Fixpoint mapi_from {A B : Type} (f : A -> nat -> B) (i : nat) (l : list A)
    : list B :=
  match l with
  | [] => []
  | a :: l' => f a i :: mapi_from f (S i) l'
  end.

Definition mapi {A B : Type} (f : A -> nat -> B) (l : list A) : list B :=
  mapi_from f 0 l.

(** Step 1: the forces, all computed on the collection the call received. *)
Definition forceUpdates (charges : list ChargeObject) (k : R) : list Vector3 :=
  map (fun charge =>
         if truthy (isFixed charge) then Vector3.zero
         else vector (calculateNetForce charge charges k))
      charges.

(** [c.mass || 1.0] *)
Definition massOrDefault (c : ChargeObject) : R :=
  match mass c with
  | Some m => numberOr m 1
  | None => 1
  end.

(** Step 2 for one source; [force] is [updates[i].force]. *)
Definition integrate (c : ChargeObject) (force : Vector3) (dt damping : R)
    : ChargeObject :=
  if truthy (isFixed c) then c else
  let mass_ := massOrDefault c in
  let acceleration := Vector3.divideScalar (Vector3.clone force) mass_ in
  let oldVelocity :=
    match velocity c with
    | Some v => Vector3.clone v
    | None => Vector3.zero
    end in
  let newVelocity :=
    Vector3.add oldVelocity (Vector3.multiplyScalar acceleration dt) in
  let newVelocity := Vector3.multiplyScalar newVelocity damping in
  let newPosition :=
    Vector3.add (Vector3.clone (position c))
                (Vector3.multiplyScalar (Vector3.clone newVelocity) dt) in
  mkCharge (id c) (type c) newPosition (q c) (radius c) (draggable c)
           (mass c) (Some newVelocity) (isFixed c).

(** [updates[i]] is always in range: [updates] has the length of [charges]
    (lemma [forceUpdates_length]); the default is never read. *)
Definition updateChargeDynamics (charges : list ChargeObject) (dt k damping : R)
    : list ChargeObject :=
  let updates := forceUpdates charges k in
  mapi (fun c i => integrate c (nth i updates Vector3.zero) dt damping) charges.

(** The default [damping = 0.98]. *)
Definition updateChargeDynamics_default (charges : list ChargeObject) (dt k : R)
    : list ChargeObject :=
  updateChargeDynamics charges dt k 0.98.

(** ** Notions used in the statements *)

(** Sum of a list of vectors and of a list of numbers. *)
Definition vsum (l : list Vector3) : Vector3 :=
  fold_right Vector3.add Vector3.zero l.

Definition rsum (l : list R) : R := fold_right Rplus 0 l.

(** A sequence of calls of [updateChargeDynamics], each on the result of the
    one before, with its own [dt], [k] and [damping]. *)
Definition runSteps (params : list (R * R * R)) (charges : list ChargeObject)
    : list ChargeObject :=
  fold_left (fun cs p =>
               match p with
               | (dt, k, damping) => updateChargeDynamics cs dt k damping
               end)
            params charges.

(** The force that [updateChargeDynamics] hands to the integration of [c]:
    the entry of [updates] at the index of [c]. *)
Definition forceOn (charges : list ChargeObject) (k : R) (c : ChargeObject)
    : Vector3 :=
  if truthy (isFixed c) then Vector3.zero
  else vector (calculateNetForce c charges k).

(** The update rule in the words of the specification, by coordinate:
    [v' = (v + (F / m) * dt) * damping] and [p' = p + v' * dt]. *)
Definition eulerVelocity (v F : Vector3) (m dt damping : R) : Vector3 :=
  Vector3.mk ((Vector3.x v + Vector3.x F / m * dt) * damping)
             ((Vector3.y v + Vector3.y F / m * dt) * damping)
             ((Vector3.z v + Vector3.z F / m * dt) * damping).

Definition eulerPosition (p v' : Vector3) (dt : R) : Vector3 :=
  Vector3.mk (Vector3.x p + Vector3.x v' * dt)
             (Vector3.y p + Vector3.y v' * dt)
             (Vector3.z p + Vector3.z v' * dt).

(** [c.velocity], the zero vector when the field is absent. *)
Definition velocityOrZero (c : ChargeObject) : Vector3 :=
  match velocity c with
  | Some v => v
  | None => Vector3.zero
  end.

(** Two sources agree on everything but position and velocity. *)
Definition sameSource (c c' : ChargeObject) : Prop :=
  id c' = id c /\ type c' = type c /\ q c' = q c /\ radius c' = radius c
  /\ draggable c' = draggable c /\ mass c' = mass c
  /\ isFixed c' = isFixed c.

(** A pinned and a free unit point charge, one length unit apart. *)
Definition pinned : ChargeObject :=
  mkCharge "pinned" POINT (Vector3.mk 0 0 0) 1 0.2 None None None (Some true).

Definition freeWith (m : option R) : ChargeObject :=
  mkCharge "free" POINT (Vector3.mk 1 0 0) 1 0.2 None m None None.

Definition free : ChargeObject := freeWith None.

(** [out] is a multiple of [step] nearest to [a]: an integer multiple, at
    most [step / 2] away, and no integer multiple is nearer. *)
Definition nearestMultiple (a out step : R) : Prop :=
  (exists n : Z, out = IZR n * step)
  /\ Rabs (out - a) <= step / 2
  /\ (forall m : Z, Rabs (out - a) <= Rabs (IZR m * step - a)).

(** The same source with the Point geometry. *)
Definition asPoint (c : ChargeObject) : ChargeObject :=
  mkCharge (id c) POINT (position c) (q c) (radius c) (draggable c) (mass c)
           (velocity c) (isFixed c).

(** The radial unit vector: [rVec] divided by its length. *)
Definition unitVector (rVec : Vector3) : Vector3 :=
  Vector3.multiplyScalar rVec (1 / Vector3.length rVec).

(** The signed magnitude along the radial unit vector that the
    SPHERE_NON_CONDUCTING case of [getFieldFromObject] computes at distance
    [d] from the centre. *)
Definition nonConductingMagnitude (k q rad d : R) : R :=
  if Rlt_dec d 0.05 then 0
  else if Rge_dec d rad then k * q / (d * d)
  else k * q * d / (rad * rad * rad).

(** A sphere of charge [5] and radius [1] at the origin. *)
Definition unitSphere (ty : ChargeType) : ChargeObject :=
  mkCharge "sphere" ty Vector3.zero 5 1 None None None None.

(** The angle [theta] of sample [i] in the ring loops. *)
Definition ringAngle (samples i : nat) : R :=
  (INR i / INR samples) * PI * 2.

(** The point at height [h] above the centre of [c], on the axis of a ring
    lying in the XZ plane. *)
Definition onAxis (c : ChargeObject) (h : R) : Vector3 :=
  Vector3.mk (Vector3.x (position c)) (Vector3.y (position c) + h)
             (Vector3.z (position c)).

(** The exact field of a ring on its axis, along the axis:
    [k * q * h / (R^2 + h^2)^1.5]. *)
Definition ringAxisExact (k q rad h : R) : R :=
  k * q * h / Rpower (rad * rad + h * h) 1.5.

(** A ring of radius [0.75] and charge [1] at the origin. *)
Definition ring075 : ChargeObject :=
  mkCharge "ring" RING Vector3.zero 1 0.75 None None None None.

(** Sample [i] of [n] of the ring [c] as a source of its own: a Point
    source of charge [q / n] at the sample position. *)
Definition samplePoint (c : ChargeObject) (n i : nat) : ChargeObject :=
  mkCharge (id c) POINT (ringSamplePos (position c) (radius c) n i)
           (q c / INR n) (radius c) None None None None.

(** A ring of radius [0.048] and charge [40] at the origin. *)
Definition smallRing : ChargeObject :=
  mkCharge "ring" RING Vector3.zero 40 0.048 None None None None.

(** A ring of radius [1] and charge [30] at the origin. *)
Definition unitRing : ChargeObject :=
  mkCharge "ring" RING Vector3.zero 30 1 None None None None.

(** What sample [i] of a ring adds to the field: its Point-law term when
    it is farther than [0.1] from the probe, nothing otherwise. *)
Definition fieldSampleTerm (pos : Vector3) (c : ChargeObject) (k : R)
    (i : nat) : Vector3 :=
  if Rgt_dec (Vector3.length
                (Vector3.subVectors pos
                   (ringSamplePos (position c) (radius c) 40 i))) 0.1
  then getFieldFromObject pos (samplePoint c 40 i) k
  else Vector3.zero.

(** What sample [i] of a ring adds to the potential: its Point-law term
    when it is farther than [0.05] from the probe, nothing otherwise. *)
Definition potentialSampleTerm (pos : Vector3) (c : ChargeObject) (k : R)
    (i : nat) : R :=
  if Rgt_dec (Vector3.distanceTo pos
                (ringSamplePos (position c) (radius c) 30 i)) 0.05
  then calculatePotential pos [samplePoint c 30 i] k
  else 0.

(** The potential of one source at [pos], written out by geometry: nothing
    inside the guard; [k * q / d] for a Point source and outside a sphere;
    [k * q / R] inside a conducting sphere;
    [(k * q / (2 * R)) * (3 - d^2 / R^2)] inside a uniformly charged one;
    for a ring the sum, over its 30 samples, of [k * (q / 30) / di] for the
    samples farther than [0.05] from [pos]. *)
Definition potentialContribution (pos : Vector3) (c : ChargeObject) (k : R)
    : R :=
  let d := Vector3.distanceTo pos (position c) in
  if Rlt_dec d 0.05 then 0 else
  match type c with
  | POINT => k * q c / d
  | SPHERE_CONDUCTING =>
      if Rge_dec d (radius c) then k * q c / d else k * q c / radius c
  | SPHERE_NON_CONDUCTING =>
      if Rge_dec d (radius c) then k * q c / d
      else k * q c / (2 * radius c)
           * (3 - d * d / (radius c * radius c))
  | RING =>
      rsum (map (fun i =>
                   let di := Vector3.distanceTo pos
                               (ringSamplePos (position c) (radius c) 30 i) in
                   if Rgt_dec di 0.05 then k * (q c / 30) / di else 0)
                (seq 0 30))
  end.

(** ** Further notions used in the statements *)

(** [damping + damping^2 + ... + damping^n]. *)
Fixpoint geometricSum (n : nat) (damping : R) : R :=
  match n with
  | O => 0
  | S n' => geometricSum n' damping + damping ^ n
  end.

(** The total momentum of a collection, each source with the mass the
    integration uses for it. *)
Definition momentum (charges : list ChargeObject) : Vector3 :=
  vsum (map (fun c => Vector3.multiplyScalar (velocityOrZero c)
                        (massOrDefault c)) charges).

(** The opposite vector. *)
Definition opposite (v : Vector3) : Vector3 := Vector3.multiplyScalar v (-1).

(** The force on the Point source [a] that is due to the source [b]:
    the charge of [a] times the field of [b] at the place of [a], and
    nothing when [b] has the [id] of [a]. *)
Definition pairForce (k : R) (a b : ChargeObject) : Vector3 :=
  if String.eqb (id b) (id a) then Vector3.zero
  else Vector3.multiplyScalar (getFieldFromObject (position a) b k) (q a).

(** Two Point sources that are free to move, of the same mass, with
    opposite positions and opposite velocities. *)
Definition mirrored (a b : ChargeObject) : Prop :=
  type a = POINT /\ type b = POINT
  /\ truthy (isFixed a) = false /\ truthy (isFixed b) = false
  /\ id a <> id b
  /\ massOrDefault a = massOrDefault b
  /\ position b = opposite (position a)
  /\ velocityOrZero b = opposite (velocityOrZero a).

(** The two sources of the initial scene ([src/App.tsx], with
    [DEFAULTS.POINT_RADIUS = 0.15]). *)
Definition c1 : ChargeObject :=
  mkCharge "c1" POINT (Vector3.mk (-2) 0 0) 5 0.15 None (Some 1) None None.

Definition c2 : ChargeObject :=
  mkCharge "c2" POINT (Vector3.mk 2 0 0) (-5) 0.15 None (Some 1) None None.

(** The source [c] with its charge multiplied by [s]. *)
Definition scaleCharge (c : ChargeObject) (s : R) : ChargeObject :=
  mkCharge (id c) (type c) (position c) (s * q c) (radius c) (draggable c)
           (mass c) (velocity c) (isFixed c).

(** The source [c] moved by the vector [t]. *)
Definition translate (c : ChargeObject) (t : Vector3) : ChargeObject :=
  mkCharge (id c) (type c) (Vector3.add (position c) t) (q c) (radius c)
           (draggable c) (mass c) (velocity c) (isFixed c).

(** The potential that the two sphere cases of [calculatePotential] add,
    as a function of the distance [d] to the centre. *)
Definition spherePotential (conducting : bool) (k q rad d : R) : R :=
  if Rlt_dec d 0.05 then 0
  else if Rge_dec d rad then k * q / d
  else if conducting then k * q / rad
  else k * q / (2 * rad) * (3 - d * d / (rad * rad)).

(** ** Callers in the components *)

(** [PhysicsLoop] ([src/components/DynamicWorld.tsx]): the callback given
    to [useFrame].  The state is [chargesRef.current]; the result is the
    new state and the collection handed to [onUpdate], if there is a
    call. *)
Definition physicsFrame (isPlaying : bool) (chargesRef : list ChargeObject)
    (delta k : R) : list ChargeObject * option (list ChargeObject) :=
  if negb isPlaying then (chargesRef, None) else
  let dt := Rmin delta 0.1 in
  let newCharges := updateChargeDynamics_default chargesRef dt k in
  (newCharges, Some newCharges).

(** A run of frames, each with its own [delta]. *)
Definition runFrames (isPlaying : bool) (k : R) (deltas : list R)
    (chargesRef : list ChargeObject) : list ChargeObject :=
  fold_left (fun ref delta => fst (physicsFrame isPlaying ref delta k))
            deltas chargesRef.

(** [src/constants.ts] *)
Definition MAX_VECTOR_LENGTH_VISUAL : R := 4.

(** [v.lengthSq()] of three.js. *)
Definition lengthSq (v : Vector3) : R :=
  Vector3.x v * Vector3.x v + Vector3.y v * Vector3.y v
  + Vector3.z v * Vector3.z v.

(** [VectorArrow] ([src/components/VectorArrow.tsx]): the length of the
    arrow that the component draws, [None] where it returns [null]. *)
Definition arrowLength (visible : bool) (directionVector : Vector3)
    (scaleFactor : R) : option R :=
  if negb visible then None else
  if Rlt_dec (lengthSq directionVector) 0.0001 then None else
  let mag := Vector3.length directionVector in
  let visualLength := ln (1 + mag) * scaleFactor in
  let visualLength := Rmin visualLength (MAX_VECTOR_LENGTH_VISUAL * 2) in
  if Rlt_dec visualLength 0.2 then None else Some visualLength.

(** The shaft and the head of an arrow of length [len]. *)
Definition cylinderLen (len : R) : R := len * 0.8.
Definition coneLen (len : R) : R := len * 0.2.

(** The force arrow of [ChargeObjectMesh] ([src/components/World.tsx]):
    drawn when [config.showVectors], from the vector of
    [calculateNetForce], with [config.vectorScale]. *)
Definition forceArrow (showVectors : bool) (charge : ChargeObject)
    (allCharges : list ChargeObject) (k vectorScale : R) : option R :=
  if showVectors then
    arrowLength true (vector (calculateNetForce charge allCharges k))
                vectorScale
  else None.

(** [InteractionMode] and [TestPoint] of [src/types.ts]. *)
Inductive InteractionMode : Type :=
  | VIEW
  | ADD_POINT_POS
  | ADD_POINT_NEG
  | ADD_RING
  | ADD_SPHERE_COND
  | ADD_SPHERE_NONCOND
  | ADD_TEST_POINT
  | SELECT.

Record TestPoint : Type := mkTestPoint {
  tpId : string;
  tpPosition : Vector3
}.

(** [DEFAULTS] of [src/constants.ts]. *)
Definition POINT_RADIUS : R := 0.15.
Definition RING_RADIUS : R := 1.0.
Definition SPHERE_RADIUS : R := 0.8.

(** The click handler of [SceneInteraction] ([src/components/World.tsx]):
    the point handed to [onPlaceObject], [None] when the handler
    returns before the call. *)
Definition sceneClick (mode : InteractionMode) (gridStep : R)
    (point : Vector3) : option Vector3 :=
  match mode with
  | VIEW | SELECT => None
  | _ => Some (snapToGrid point gridStep)
  end.

(** The state of [App] that [handlePlaceObject] reads and sets. *)
Record AppState : Type := mkApp {
  charges : list ChargeObject;
  testPoints : list TestPoint;
  mode : InteractionMode;
  selectedId : option string
}.

(** A source as [handlePlaceObject] writes it: the optional fields other
    than [mass] are absent. *)
Definition newChargeObject (newId : string) (ty : ChargeType)
    (pos : Vector3) (charge rad m : R) : ChargeObject :=
  mkCharge newId ty pos charge rad None (Some m) None None.

(** [handlePlaceObject] ([src/App.tsx]); [newId] is the result of
    [generateId()]. *)
Definition handlePlaceObject (st : AppState) (newId : string)
    (pos : Vector3) : AppState :=
  let place c :=
    mkApp (charges st ++ [c]) (testPoints st) (mode st) (selectedId st) in
  match mode st with
  | ADD_POINT_POS =>
      place (newChargeObject newId POINT pos 5 POINT_RADIUS 1)
  | ADD_POINT_NEG =>
      place (newChargeObject newId POINT pos (-5) POINT_RADIUS 1)
  | ADD_RING =>
      place (newChargeObject newId RING pos 5 RING_RADIUS 2)
  | ADD_SPHERE_COND =>
      place (newChargeObject newId SPHERE_CONDUCTING pos 5 SPHERE_RADIUS 5)
  | ADD_SPHERE_NONCOND =>
      place (newChargeObject newId SPHERE_NON_CONDUCTING pos 5
               SPHERE_RADIUS 5)
  | ADD_TEST_POINT =>
      mkApp (charges st) (testPoints st ++ [mkTestPoint newId pos]) VIEW
            (Some newId)
  | _ => st
  end.

(** A click on the scene: the handler of [SceneInteraction] with
    [handlePlaceObject] as its [onPlaceObject]. *)
Definition clickToPlace (st : AppState) (gridStep : R) (newId : string)
    (point : Vector3) : AppState :=
  match sceneClick (mode st) gridStep point with
  | Some snapped => handlePlaceObject st newId snapped
  | None => st
  end.

(** * Properties *)

(** ** Vectors *)

Lemma vec_eq (a b : Vector3) :
  Vector3.x a = Vector3.x b -> Vector3.y a = Vector3.y b ->
  Vector3.z a = Vector3.z b -> a = b.
Proof. destruct a, b; simpl; intros; subst; reflexivity. Qed.

Ltac vec := apply vec_eq; simpl; try lra; try ring.

Lemma add_zero_l (a : Vector3) : Vector3.add Vector3.zero a = a.
Proof. vec. Qed.

Lemma add_zero_r (a : Vector3) : Vector3.add a Vector3.zero = a.
Proof. vec. Qed.

Lemma add_assoc (a b c : Vector3) :
  Vector3.add (Vector3.add a b) c = Vector3.add a (Vector3.add b c).
Proof. vec. Qed.

Lemma sumsq_nonneg (a b c : R) : 0 <= a * a + b * b + c * c.
Proof. nra. Qed.

Lemma length_nonneg (a : Vector3) : 0 <= Vector3.length a.
Proof. apply sqrt_pos. Qed.

Lemma length_zero : Vector3.length Vector3.zero = 0.
Proof.
  unfold Vector3.length; simpl.
  replace (0 * 0 + 0 * 0 + 0 * 0) with 0 by ring. apply sqrt_0.
Qed.

Lemma distanceTo_length (a b : Vector3) :
  Vector3.distanceTo a b = Vector3.length (Vector3.subVectors a b).
Proof. reflexivity. Qed.

Lemma length_multiplyScalar (a : Vector3) (s : R) :
  Vector3.length (Vector3.multiplyScalar a s) = Rabs s * Vector3.length a.
Proof.
  unfold Vector3.length, Vector3.multiplyScalar; simpl.
  rewrite <- (sqrt_Rsqr_abs s), <- sqrt_mult.
  - f_equal. unfold Rsqr. ring.
  - apply Rle_0_sqr.
  - apply sumsq_nonneg.
Qed.

Lemma numberOr_nonzero (n : R) : n <> 0 -> numberOr n 1 = n.
Proof. unfold numberOr. destruct (Req_dec_T n 0); tauto. Qed.

Lemma numberOr_zero (d : R) : numberOr 0 d = d.
Proof. unfold numberOr. destruct (Req_dec_T 0 0); tauto. Qed.

Lemma numberOr_never_zero (n : R) : numberOr n 1 <> 0.
Proof. unfold numberOr. destruct (Req_dec_T n 0); lra. Qed.

Lemma normalize_nonzero (a : Vector3) :
  Vector3.length a <> 0 ->
  Vector3.normalize a = Vector3.multiplyScalar a (1 / Vector3.length a).
Proof.
  intros H. unfold Vector3.normalize, Vector3.divideScalar.
  rewrite numberOr_nonzero; auto.
Qed.

(** A normalised vector of non-zero length is a unit vector. *)
Lemma length_normalize (a : Vector3) :
  Vector3.length a <> 0 -> Vector3.length (Vector3.normalize a) = 1.
Proof.
  intros H. rewrite normalize_nonzero by assumption.
  rewrite length_multiplyScalar.
  pose proof (length_nonneg a) as Hn.
  rewrite Rabs_pos_eq.
  - field; assumption.
  - apply Rlt_le. unfold Rdiv. rewrite Rmult_1_l.
    apply Rinv_0_lt_compat. lra.
Qed.


(** ** Superposition *)

Section Accumulate.
Context {A : Type}.

(** A loop that adds [f a] to a vector accumulator. *)
Lemma fold_left_vadd (f : A -> Vector3) (l : list A) (e : Vector3) :
  fold_left (fun acc a => Vector3.add acc (f a)) l e
  = Vector3.add e (vsum (map f l)).
Proof.
  revert e. induction l as [|a l IH]; intros e; simpl.
  - now rewrite add_zero_r.
  - rewrite IH, add_assoc. reflexivity.
Qed.

(** A loop whose body adds to a number an amount that does not depend on
    the number. *)
Lemma fold_left_radd (g : R -> A -> R) (l : list A) (p : R) :
  (forall p a, g p a = p + g 0 a) ->
  fold_left g l p = p + rsum (map (g 0) l).
Proof.
  intros Hg. revert p. induction l as [|a l IH]; intros p; simpl.
  - lra.
  - rewrite IH, (Hg p a). lra.
Qed.
End Accumulate.

Lemma ringPotentialStep_shift pos charge k n p i :
  ringPotentialStep pos charge k n p i
  = p + ringPotentialStep pos charge k n 0 i.
Proof.
  unfold ringPotentialStep.
  destruct (Rgt_dec _ _); lra.
Qed.

Lemma potentialStep_shift pos k p charge :
  potentialStep pos k p charge = p + potentialStep pos k 0 charge.
Proof.
  unfold potentialStep.
  destruct (Rlt_dec _ _); [lra|].
  destruct (type charge).
  - lra.
  - rewrite (fold_left_radd _ _ p), (fold_left_radd _ _ 0);
      try (intros; apply ringPotentialStep_shift).
    lra.
  - destruct (Rge_dec _ _); lra.
  - destruct (Rge_dec _ _); lra.
Qed.

(** The contribution of one source to the potential: the callback run on a
    potential of [0], which is also [calculatePotential] on that source
    alone. *)
Lemma calculatePotential_single pos charge k :
  calculatePotential pos [charge] k = potentialStep pos k 0 charge.
Proof. reflexivity. Qed.

Lemma calculateElectricField_single pos charge k :
  vector (calculateElectricField pos [charge] k)
  = getFieldFromObject pos charge k.
Proof.
  unfold calculateElectricField; simpl. apply add_zero_l.
Qed.

Lemma calculateElectricField_vsum pos charges k :
  vector (calculateElectricField pos charges k)
  = vsum (map (fun c => getFieldFromObject pos c k) charges).
Proof.
  unfold calculateElectricField, Vector3.clone; simpl.
  rewrite fold_left_vadd. apply add_zero_l.
Qed.

Lemma calculatePotential_rsum pos charges k :
  calculatePotential pos charges k
  = rsum (map (fun c => potentialStep pos k 0 c) charges).
Proof.
  unfold calculatePotential.
  rewrite fold_left_radd by (intros; apply potentialStep_shift).
  rewrite Rplus_0_l. reflexivity.
Qed.

(** What one source adds to the potential, whatever the potential was, is
    its contribution written out by geometry. *)
Lemma potentialStep_contribution pos k p c :
  potentialStep pos k p c = p + potentialContribution pos c k.
Proof.
  rewrite potentialStep_shift. f_equal.
  unfold potentialStep, potentialContribution.
  destruct (Rlt_dec _ 0.05); [reflexivity|].
  destruct (type c).
  - apply Rplus_0_l.
  - rewrite fold_left_radd by (intros; apply ringPotentialStep_shift).
    rewrite Rplus_0_l. f_equal. apply map_ext. intros i.
    unfold ringPotentialStep.
    replace (INR 30) with 30 by (rewrite INR_IZR_INZ; reflexivity).
    destruct (Rgt_dec _ 0.05); [apply Rplus_0_l | reflexivity].
  - destruct (Rge_dec _ _); apply Rplus_0_l.
  - destruct (Rge_dec _ _); apply Rplus_0_l.
Qed.

(** C5. The field returned by [calculateElectricField] is the vector sum,
    over the whole collection, of the field of each source as
    [getFieldFromObject] computes it (which is also the field of the
    collection made of that source alone); the returned magnitude is the
    Euclidean norm of that sum; the potential returned by
    [calculatePotential] is the sum, over the whole collection, of the
    potential of each source, which is the potential of the one-source
    collection and is written out by geometry in [potentialContribution]:
    [0] inside the guard, the Point, sphere and ring laws outside.  Every
    element of the list is a term of the sums, and a source that is put
    into the collection adds its own term to both. *)
Theorem C5_superposition (pos : Vector3) (charges : list ChargeObject) (k : R) :
  vector (calculateElectricField pos charges k)
    = vsum (map (fun c => getFieldFromObject pos c k) charges)
  /\ vector (calculateElectricField pos charges k)
    = vsum (map (fun c => vector (calculateElectricField pos [c] k)) charges)
  /\ magnitude (calculateElectricField pos charges k)
    = Vector3.length (vsum (map (fun c => getFieldFromObject pos c k) charges))
  /\ calculatePotential pos charges k
    = rsum (map (fun c => calculatePotential pos [c] k) charges)
  /\ calculatePotential pos charges k
    = rsum (map (fun c => potentialContribution pos c k) charges)
  /\ (forall c,
        calculatePotential pos [c] k = potentialContribution pos c k
        /\ calculatePotential pos (charges ++ [c]) k
           = calculatePotential pos charges k + potentialContribution pos c k
        /\ vector (calculateElectricField pos (charges ++ [c]) k)
           = Vector3.add (vector (calculateElectricField pos charges k))
                         (getFieldFromObject pos c k)).
Proof.
  assert (forall l,
             calculatePotential pos l k
             = rsum (map (fun c => potentialContribution pos c k) l)) as Hpot.
  { intros l. rewrite calculatePotential_rsum. f_equal.
    apply map_ext. intros c.
    rewrite potentialStep_contribution. apply Rplus_0_l. }
  split; [|split; [|split; [|split; [|split]]]].
  - apply calculateElectricField_vsum.
  - rewrite calculateElectricField_vsum. f_equal.
    apply map_ext. intros c. now rewrite calculateElectricField_single.
  - pose proof (calculateElectricField_vsum pos charges k) as H.
    unfold calculateElectricField, Vector3.clone in *; simpl in *.
    now rewrite H.
  - rewrite calculatePotential_rsum. f_equal.
  - apply Hpot.
  - intros c. split; [|split].
    + rewrite Hpot. simpl. apply Rplus_0_r.
    + unfold calculatePotential. rewrite fold_left_app. simpl.
      apply potentialStep_contribution.
    + unfold calculateElectricField, Vector3.clone; simpl.
      rewrite fold_left_app. reflexivity.
Qed.

(** ** Self-exclusion in [calculateNetForce] *)

Lemma otherChargesOf_app target l1 l2 :
  otherChargesOf target (l1 ++ l2)
  = otherChargesOf target l1 ++ otherChargesOf target l2.
Proof. apply filter_app. Qed.

Lemma otherChargesOf_same_id target c l :
  id c = id target ->
  otherChargesOf target (c :: l) = otherChargesOf target l.
Proof.
  intros H. unfold otherChargesOf; simpl.
  rewrite H, String.eqb_refl. reflexivity.
Qed.

Lemma otherChargesOf_idem target l :
  otherChargesOf target (otherChargesOf target l) = otherChargesOf target l.
Proof.
  unfold otherChargesOf. induction l as [|c l IH]; simpl; [reflexivity|].
  destruct (negb (id c =? id target)%string) eqn:E; simpl.
  - rewrite E, IH. reflexivity.
  - exact IH.
Qed.

Lemma otherChargesOf_In target l c :
  In c (otherChargesOf target l) <-> In c l /\ id c <> id target.
Proof.
  unfold otherChargesOf. rewrite filter_In, negb_true_iff.
  split; intros [H1 H2]; split; auto.
  - intros E. rewrite E, String.eqb_refl in H2. discriminate.
  - destruct (String.eqb_spec (id c) (id target)); [contradiction|reflexivity].
Qed.

Lemma otherChargesOf_nil target l :
  (forall c, In c l -> id c = id target) -> otherChargesOf target l = [].
Proof.
  intros H. induction l as [|c l IH]; [reflexivity|].
  rewrite otherChargesOf_same_id by (apply H; now left).
  apply IH. intros c' Hc'. apply H. now right.
Qed.

(** The result of [calculateNetForce] is a function of the filtered list. *)
Lemma calculateNetForce_others target l l' k :
  otherChargesOf target l = otherChargesOf target l' ->
  calculateNetForce target l k = calculateNetForce target l' k.
Proof.
  intros H. unfold calculateNetForce, calculateNetForceWith.
  rewrite H. reflexivity.
Qed.

(** With no other source the result is the zero vector, whatever the field
    evaluator is. *)
Lemma calculateNetForceWith_alone field target l k :
  (forall c, In c l -> id c = id target) ->
  calculateNetForceWith field target l k = mkResult Vector3.zero 0.
Proof.
  intros H. unfold calculateNetForceWith.
  rewrite otherChargesOf_nil by assumption. reflexivity.
Qed.

Lemma otherChargesOf_all target l :
  (forall c, In c l -> id c <> id target) -> otherChargesOf target l = l.
Proof.
  intros H. unfold otherChargesOf. induction l as [|c l IH]; simpl;
    [reflexivity|].
  destruct (String.eqb_spec (id c) (id target)) as [E|E]; simpl.
  - exfalso. apply (H c); [now left | exact E].
  - f_equal. apply IH. intros c' Hc'. apply H. now right.
Qed.

(** C6. [calculateNetForce] works on the collection without the target:
    the filtered list holds no source with the target's [id] (so not the
    target), it is the collection with the target taken out when no other
    source has the target's [id], the result is the one computed from the
    filtered list, and putting the target into the collection at any place
    changes nothing.  When every source of the collection is the target
    (none has another [id]), the result is the zero vector with magnitude
    [0], whatever [k], the target's charge and geometry and the field
    evaluator are. *)
Theorem C6_self_exclusion (target : ChargeObject) (k : R) :
  (forall allCharges,
      ~ In target (otherChargesOf target allCharges)
      /\ (forall c, In c (otherChargesOf target allCharges) ->
                    id c <> id target)
      /\ calculateNetForce target allCharges k
         = calculateNetForce target (otherChargesOf target allCharges) k)
  /\ (forall l1 l2,
      (forall c, In c (l1 ++ l2) -> id c <> id target) ->
      otherChargesOf target (l1 ++ target :: l2) = l1 ++ l2)
  /\ (forall l1 l2,
      calculateNetForce target (l1 ++ target :: l2) k
      = calculateNetForce target (l1 ++ l2) k)
  /\ (forall allCharges,
      (forall c, In c allCharges -> id c = id target) ->
      calculateNetForce target allCharges k = mkResult Vector3.zero 0
      /\ forall field,
           calculateNetForceWith field target allCharges k
           = mkResult Vector3.zero 0)
  /\ calculateNetForce target [] k = mkResult Vector3.zero 0
  /\ calculateNetForce target [target] k = mkResult Vector3.zero 0.
Proof.
  split; [|split; [|split; [|split; [|split]]]].
  - intros l. split; [|split].
    + rewrite otherChargesOf_In. tauto.
    + intros c Hc. apply otherChargesOf_In in Hc. tauto.
    + apply calculateNetForce_others. symmetry. apply otherChargesOf_idem.
  - intros l1 l2 H.
    rewrite otherChargesOf_app, otherChargesOf_same_id by reflexivity.
    rewrite <- otherChargesOf_app. now apply otherChargesOf_all.
  - intros l1 l2. apply calculateNetForce_others.
    rewrite !otherChargesOf_app, otherChargesOf_same_id; reflexivity.
  - intros l H. split; [|intros field];
      now apply calculateNetForceWith_alone.
  - reflexivity.
  - apply calculateNetForceWith_alone.
    intros c [<-|[]]. reflexivity.
Qed.

(** C6 at a collection made of two copies of the target. *)
Lemma C6_self_exclusion_witness :
  let t := mkCharge "a" POINT (Vector3.mk 1 2 3) 5 1 None None None None in
  calculateNetForce t [t; t] 7 = mkResult Vector3.zero 0.
Proof.
  intros t.
  apply (proj1 (proj2 (proj2 (proj2 (C6_self_exclusion t 7))))).
  intros c [H|[H|[]]]; subst; reflexivity.
Defined.

(** ** The integration step *)

Lemma mapi_from_length {A B} (f : A -> nat -> B) s l :
  List.length (mapi_from f s l) = List.length l.
Proof.
  revert s. induction l as [|a l IH]; intros s; simpl; [|rewrite IH];
    reflexivity.
Qed.

Lemma mapi_from_nth_error {A B} (f : A -> nat -> B) l : forall s i,
  nth_error (mapi_from f s l) i
  = option_map (fun a => f a (s + i)%nat) (nth_error l i).
Proof.
  induction l as [|a l IH]; intros s i.
  - destruct i; reflexivity.
  - destruct i as [|i]; simpl.
    + now rewrite Nat.add_0_r.
    + rewrite IH. now rewrite Nat.add_succ_r.
Qed.

Lemma mapi_from_map {A B C} (f : A -> nat -> B) (g : B -> C) (h : A -> C) l :
  (forall a i, g (f a i) = h a) ->
  forall s, map g (mapi_from f s l) = map h l.
Proof.
  intros H. induction l as [|a l IH]; intros s; simpl; [reflexivity|].
  now rewrite H, IH.
Qed.

Lemma forceUpdates_length charges k :
  List.length (forceUpdates charges k) = List.length charges.
Proof. unfold forceUpdates. apply length_map. Qed.

(** The entry of [updates] read for the source at index [i]. *)
Lemma forceUpdates_nth charges k i c :
  nth_error charges i = Some c ->
  nth i (forceUpdates charges k) Vector3.zero = forceOn charges k c.
Proof.
  intros H. unfold forceUpdates.
  apply nth_error_nth.
  rewrite nth_error_map, H. reflexivity.
Qed.

Lemma updateChargeDynamics_nth charges dt k damping i c :
  nth_error charges i = Some c ->
  nth_error (updateChargeDynamics charges dt k damping) i
  = Some (integrate c (forceOn charges k c) dt damping).
Proof.
  intros H. unfold updateChargeDynamics, mapi.
  rewrite mapi_from_nth_error, H; simpl.
  now rewrite (forceUpdates_nth _ _ _ _ H).
Qed.

Lemma updateChargeDynamics_length charges dt k damping :
  List.length (updateChargeDynamics charges dt k damping)
  = List.length charges.
Proof. apply mapi_from_length. Qed.

Lemma integrate_id c f dt damping : id (integrate c f dt damping) = id c.
Proof. unfold integrate. destruct (truthy (isFixed c)); reflexivity. Qed.

Lemma integrate_fixed c f dt damping :
  truthy (isFixed c) = true -> integrate c f dt damping = c.
Proof. intros H. unfold integrate. now rewrite H. Qed.

Lemma updateChargeDynamics_ids charges dt k damping :
  map id (updateChargeDynamics charges dt k damping) = map id charges.
Proof.
  apply mapi_from_map. intros. apply integrate_id.
Qed.

Lemma massOrDefault_cases (c : ChargeObject) :
  (mass c = None -> massOrDefault c = 1)
  /\ (mass c = Some 0 -> massOrDefault c = 1)
  /\ (forall m, mass c = Some m -> m <> 0 -> massOrDefault c = m)
  /\ massOrDefault c <> 0.
Proof.
  unfold massOrDefault. repeat split.
  - now intros ->.
  - intros ->. apply numberOr_zero.
  - intros m -> Hm. now apply numberOr_nonzero.
  - destruct (mass c); [apply numberOr_never_zero | lra].
Qed.

(** What [integrate] returns for a source that is not fixed, in the words
    of the update rule. *)
Lemma integrate_free c F dt damping :
  truthy (isFixed c) = false ->
  let c' := integrate c F dt damping in
  let v' := eulerVelocity (velocityOrZero c) F (massOrDefault c) dt damping in
  velocity c' = Some v'
  /\ position c' = eulerPosition (position c) v' dt
  /\ sameSource c c'.
Proof.
  intros H. unfold integrate. rewrite H. simpl.
  unfold velocityOrZero, Vector3.clone, sameSource.
  repeat split;
    destruct (velocity c) as [v|]; try f_equal; vec; unfold Rdiv; ring.
Qed.

(** C2. One call of [updateChargeDynamics]: the output has the length of
    the input and the same [id]s in the same order; the source at each index
    of the input that is not fixed is returned at that index with velocity
    [v' = (v + (F / mass) * dt) * damping] and position
    [p' = position + v' * dt], every other field kept, where [F] is the
    vector of [calculateNetForce] on the collection the call received, [v]
    is the zero vector when the velocity is absent and [mass] is [1] when
    the mass is absent (and the given mass when it is present and not
    zero). *)
Theorem C2_step (charges : list ChargeObject) (dt k damping : R) :
  let out := updateChargeDynamics charges dt k damping in
  List.length out = List.length charges
  /\ map id out = map id charges
  /\ (forall i c,
        nth_error charges i = Some c ->
        truthy (isFixed c) = false ->
        exists c',
          nth_error out i = Some c'
          /\ let F := vector (calculateNetForce c charges k) in
             let v' := eulerVelocity (velocityOrZero c) F (massOrDefault c)
                                     dt damping in
             velocity c' = Some v'
             /\ position c' = eulerPosition (position c) v' dt
             /\ sameSource c c'
             /\ (velocity c = None -> velocityOrZero c = Vector3.zero)
             /\ (mass c = None -> massOrDefault c = 1)
             /\ (forall m, mass c = Some m -> m <> 0 -> massOrDefault c = m)).
Proof.
  intros out. split; [|split].
  - apply updateChargeDynamics_length.
  - apply updateChargeDynamics_ids.
  - intros i c Hi Hfree.
    exists (integrate c (forceOn charges k c) dt damping). split.
    + now apply updateChargeDynamics_nth.
    + unfold forceOn. rewrite Hfree.
      destruct (integrate_free c (vector (calculateNetForce c charges k))
                  dt damping Hfree) as (Hv & Hp & Hs).
      destruct (massOrDefault_cases c) as (Hm1 & _ & Hm3 & _).
      repeat split; try assumption; try apply Hs.
      unfold velocityOrZero. now intros ->.
Qed.

Lemma sqrt_1_0_0 : sqrt (1 * 1 + 0 * 0 + 0 * 0) = 1.
Proof. replace (1 * 1 + 0 * 0 + 0 * 0) with 1 by ring. apply sqrt_1. Qed.

(** The force on the free charge next to [pinned], with [k = 1]. *)
Lemma force_on_freeWith (m : option R) :
  vector (calculateNetForce (freeWith m) [pinned; freeWith m] 1)
  = Vector3.mk 1 0 0.
Proof.
  unfold calculateNetForce, calculateNetForceWith, otherChargesOf; simpl.
  unfold calculateElectricField; simpl.
  unfold getFieldFromObject, pinned; simpl.
  unfold Vector3.length, Vector3.subVectors; simpl.
  replace (1 - 0) with 1 by ring. replace (0 - 0) with 0 by ring.
  rewrite sqrt_1_0_0.
  destruct (Rlt_dec 1 0.05); [lra|].
  unfold radial, Vector3.clone. rewrite normalize_nonzero.
  - unfold Vector3.length; simpl. rewrite sqrt_1_0_0. vec; field.
  - unfold Vector3.length; simpl. rewrite sqrt_1_0_0. lra.
Qed.

(** C2 at [pinned; free] with [dt = k = damping = 1]: the free charge is
    pushed away to [(2, 0, 0)] with velocity [(1, 0, 0)]. *)
Lemma C2_step_witness :
  exists c',
    nth_error (updateChargeDynamics [pinned; free] 1 1 1) 1 = Some c'
    /\ velocity c' = Some (Vector3.mk 1 0 0)
    /\ position c' = Vector3.mk 2 0 0.
Proof.
  destruct (C2_step [pinned; free] 1 1 1) as (_ & _ & H).
  destruct (H 1%nat free eq_refl eq_refl) as (c' & Hn & Hv & Hp & _).
  exists c'. split; [exact Hn|].
  unfold free in Hv, Hp. rewrite force_on_freeWith in Hv, Hp.
  split.
  - rewrite Hv. f_equal.
    unfold eulerVelocity, massOrDefault; simpl. vec; field.
  - rewrite Hp.
    unfold eulerPosition, eulerVelocity, massOrDefault; simpl.
    vec; field.
Defined.

(** ** Fixed sources *)

Lemma isFixed_truthy c : isFixed c = Some true -> truthy (isFixed c) = true.
Proof. now intros ->. Qed.

Lemma updateChargeDynamics_fixed charges dt k damping i c :
  nth_error charges i = Some c ->
  isFixed c = Some true ->
  nth_error (updateChargeDynamics charges dt k damping) i = Some c.
Proof.
  intros Hi Hf.
  rewrite (updateChargeDynamics_nth _ _ _ _ _ _ Hi).
  now rewrite integrate_fixed by now apply isFixed_truthy.
Qed.

Lemma runSteps_fixed params : forall charges i c,
  nth_error charges i = Some c ->
  isFixed c = Some true ->
  nth_error (runSteps params charges) i = Some c.
Proof.
  induction params as [|[[dt k] damping] params IH]; intros charges i c Hi Hf.
  - exact Hi.
  - simpl. apply IH; [|exact Hf].
    now apply updateChargeDynamics_fixed.
Qed.

(** C7. A source with [isFixed = true] at an index of the collection is
    returned at that index as it is, position and velocity included, by one
    call of [updateChargeDynamics] and by any sequence of calls; the force
    assigned to it is the zero vector.  It stays a source for the others:
    it is in the list of other charges of every target with another [id],
    and the force that moves a source that is not fixed is
    [calculateNetForce] on the whole collection. *)
Theorem C7_fixed_invariance (charges : list ChargeObject) (i : nat)
    (c : ChargeObject) :
  nth_error charges i = Some c ->
  isFixed c = Some true ->
  (forall dt k damping,
      nth_error (updateChargeDynamics charges dt k damping) i = Some c)
  /\ (forall params, nth_error (runSteps params charges) i = Some c)
  /\ (forall params c',
        nth_error (runSteps params charges) i = Some c' ->
        position c' = position c /\ velocity c' = velocity c)
  /\ (forall k, forceOn charges k c = Vector3.zero)
  /\ (forall target, id target <> id c ->
        In c (otherChargesOf target charges))
  /\ (forall j target dt k damping,
        nth_error charges j = Some target ->
        truthy (isFixed target) = false ->
        nth_error (updateChargeDynamics charges dt k damping) j
        = Some (integrate target
                  (vector (calculateNetForce target charges k)) dt damping)).
Proof.
  intros Hi Hf. repeat split.
  - intros. now apply updateChargeDynamics_fixed.
  - intros. now apply runSteps_fixed.
  - rewrite (runSteps_fixed params _ _ _ Hi Hf) in H. now inversion H.
  - rewrite (runSteps_fixed params _ _ _ Hi Hf) in H. now inversion H.
  - intros k. unfold forceOn. now rewrite isFixed_truthy.
  - intros target Hid. apply otherChargesOf_In. split.
    + eapply nth_error_In; eassumption.
    + congruence.
  - intros j target dt k damping Hj Hfree.
    rewrite (updateChargeDynamics_nth _ _ _ _ _ _ Hj).
    unfold forceOn. now rewrite Hfree.
Qed.

(** C7 at [pinned; free], over two calls with different parameters. *)
Lemma C7_fixed_invariance_witness :
  nth_error (runSteps [(1, 1, 1); (0.5, 2, 0.98)] [pinned; free]) 0
    = Some pinned
  /\ In pinned (otherChargesOf free [pinned; free]).
Proof.
  destruct (C7_fixed_invariance [pinned; free] 0 pinned eq_refl eq_refl)
    as (_ & H2 & _ & _ & H5 & _).
  split.
  - apply H2.
  - apply H5. discriminate.
Defined.

(** ** The mass used by the integration *)

(** C10. In [updateChargeDynamics] a source that is not fixed and whose
    mass is absent or [0] is integrated with mass [1]; a mass that is
    present and not [0], negative ones included, is the divisor as given;
    the divisor [c.mass || 1.0] is never [0]. *)
Theorem C10_mass_default (charges : list ChargeObject) (dt k damping : R)
    (i : nat) (c : ChargeObject) :
  nth_error charges i = Some c ->
  truthy (isFixed c) = false ->
  exists c',
    nth_error (updateChargeDynamics charges dt k damping) i = Some c'
    /\ let F := vector (calculateNetForce c charges k) in
       let v := velocityOrZero c in
       (mass c = None \/ mass c = Some 0 ->
          velocity c' = Some (eulerVelocity v F 1 dt damping)
          /\ position c'
             = eulerPosition (position c) (eulerVelocity v F 1 dt damping) dt)
       /\ (forall m, mass c = Some m -> m <> 0 ->
          velocity c' = Some (eulerVelocity v F m dt damping)
          /\ position c'
             = eulerPosition (position c) (eulerVelocity v F m dt damping) dt)
       /\ massOrDefault c <> 0.
Proof.
  intros Hi Hfree.
  exists (integrate c (forceOn charges k c) dt damping). split.
  - now apply updateChargeDynamics_nth.
  - unfold forceOn. rewrite Hfree.
    destruct (integrate_free c (vector (calculateNetForce c charges k))
                dt damping Hfree) as (Hv & Hp & _).
    destruct (massOrDefault_cases c) as (Hm1 & Hm2 & Hm3 & Hm4).
    cbv zeta. split; [|split].
    + intros Hm.
      assert (massOrDefault c = 1) as E by (destruct Hm; auto).
      rewrite E in Hv, Hp. now split.
    + intros m Hm Hne. rewrite (Hm3 m Hm Hne) in Hv, Hp. now split.
    + exact Hm4.
Qed.

(** C10 at a free charge of mass [0] (integrated with mass [1]) and of
    mass [-2] (pulled towards the pinned charge). *)
Lemma C10_mass_default_witness :
  (exists c',
      nth_error (updateChargeDynamics [pinned; freeWith (Some 0)] 1 1 1) 1
        = Some c'
      /\ velocity c' = Some (Vector3.mk 1 0 0))
  /\ (exists c',
      nth_error (updateChargeDynamics [pinned; freeWith (Some (-2))] 1 1 1) 1
        = Some c'
      /\ velocity c' = Some (Vector3.mk (-1 / 2) 0 0)).
Proof.
  split.
  - destruct (C10_mass_default [pinned; freeWith (Some 0)] 1 1 1 1
                (freeWith (Some 0)) eq_refl eq_refl) as (c' & Hn & H0 & _).
    exists c'. split; [exact Hn|].
    destruct (H0 (or_intror eq_refl)) as (Hv & _).
    rewrite force_on_freeWith in Hv. rewrite Hv. f_equal.
    unfold eulerVelocity; simpl. vec; field.
  - destruct (C10_mass_default [pinned; freeWith (Some (-2))] 1 1 1 1
                (freeWith (Some (-2))) eq_refl eq_refl)
      as (c' & Hn & _ & Hm & _).
    exists c'. split; [exact Hn|].
    destruct (Hm (-2) eq_refl ltac:(lra)) as (Hv & _).
    rewrite force_on_freeWith in Hv. rewrite Hv. f_equal.
    unfold eulerVelocity; simpl. vec; field.
Defined.

(** ** Grid snapping *)

Lemma Math_round_bounds (t : R) :
  t - / 2 < Math_round t <= t + / 2.
Proof.
  unfold Math_round.
  destruct (base_Int_part (t + / 2)) as [H1 H2]. lra.
Qed.

Lemma Math_round_nearest (t : R) (m : Z) :
  Rabs (Math_round t - t) <= Rabs (IZR m - t).
Proof.
  pose proof (Math_round_bounds t) as [Hlo Hhi].
  unfold Math_round in *.
  set (n := Int_part (t + / 2)) in *.
  destruct (Z.lt_trichotomy m n) as [Hlt | [Heq | Hgt]].
  - assert (IZR m <= IZR n - 1) as H.
    { rewrite <- minus_IZR. apply IZR_le. lia. }
    unfold Rabs. destruct (Rcase_abs _), (Rcase_abs _); lra.
  - subst m. lra.
  - assert (IZR n + 1 <= IZR m) as H.
    { rewrite <- plus_IZR. apply IZR_le. lia. }
    unfold Rabs. destruct (Rcase_abs _), (Rcase_abs _); lra.
Qed.

Lemma snap_coordinate (a step : R) :
  0 < step -> nearestMultiple a (Math_round (a / step) * step) step.
Proof.
  intros Hs. unfold nearestMultiple.
  assert (forall r : R, Rabs (r * step - a) = Rabs (r - a / step) * step)
    as Hscale.
  { intros r. replace (r * step - a) with ((r - a / step) * step)
      by (field; lra).
    rewrite Rabs_mult, (Rabs_pos_eq step) by lra. reflexivity. }
  split; [|split].
  - exists (Int_part (a / step + / 2)). reflexivity.
  - rewrite Hscale.
    pose proof (Math_round_bounds (a / step)) as [Hlo Hhi].
    assert (Rabs (Math_round (a / step) - a / step) <= / 2) as Hr.
    { unfold Rabs. destruct (Rcase_abs _); lra. }
    nra.
  - intros m. rewrite !Hscale.
    apply Rmult_le_compat_r; [lra|]. apply Math_round_nearest.
Qed.

(** C9. For [step > 0], each coordinate of [snapToGrid pos step] is an
    integer multiple of [step], at most [step / 2] from the same coordinate
    of [pos], and no integer multiple of [step] is nearer to it; it is
    computed from that coordinate alone. *)
Theorem C9_snapToGrid (pos : Vector3) (step : R) :
  0 < step ->
  nearestMultiple (Vector3.x pos) (Vector3.x (snapToGrid pos step)) step
  /\ nearestMultiple (Vector3.y pos) (Vector3.y (snapToGrid pos step)) step
  /\ nearestMultiple (Vector3.z pos) (Vector3.z (snapToGrid pos step)) step
  /\ (forall pos',
        (Vector3.x pos' = Vector3.x pos ->
         Vector3.x (snapToGrid pos' step) = Vector3.x (snapToGrid pos step))
        /\ (Vector3.y pos' = Vector3.y pos ->
         Vector3.y (snapToGrid pos' step) = Vector3.y (snapToGrid pos step))
        /\ (Vector3.z pos' = Vector3.z pos ->
         Vector3.z (snapToGrid pos' step) = Vector3.z (snapToGrid pos step))).
Proof.
  intros Hs. repeat split; try (apply snap_coordinate; assumption);
    simpl; intros ->; reflexivity.
Qed.

Lemma Math_round_unique (t : R) (n : Z) :
  IZR n <= t + / 2 < IZR n + 1 -> Math_round t = IZR n.
Proof.
  intros [H1 H2]. unfold Math_round. f_equal.
  destruct (base_Int_part (t + / 2)) as [H3 H4].
  set (k := Int_part (t + / 2)) in *.
  assert (IZR k < IZR n + 1) as A by lra.
  assert (IZR n < IZR k + 1) as B by lra.
  rewrite <- plus_IZR in A, B. apply lt_IZR in A, B. lia.
Qed.

(** C9 at [(0.7, -0.2, 3)] with step [0.5]: the result is [(0.5, 0, 3)]. *)
Lemma C9_snapToGrid_witness :
  0 < 0.5
  /\ nearestMultiple 0.7 (Vector3.x (snapToGrid (Vector3.mk 0.7 (-0.2) 3) 0.5))
                     0.5
  /\ snapToGrid (Vector3.mk 0.7 (-0.2) 3) 0.5 = Vector3.mk 0.5 0 3.
Proof.
  assert (0 < 0.5) as Hs by lra.
  split; [exact Hs|]. split.
  - exact (proj1 (C9_snapToGrid (Vector3.mk 0.7 (-0.2) 3) 0.5 Hs)).
  - unfold snapToGrid; simpl.
    rewrite (Math_round_unique (0.7 / 0.5) 1) by lra.
    rewrite (Math_round_unique (-0.2 / 0.5) 0) by lra.
    rewrite (Math_round_unique (3 / 0.5) 6) by lra.
    vec.
Defined.

(** ** The field and potential laws of the two spheres *)

Lemma radial_unitVector (rVec : Vector3) (m : R) :
  Vector3.length rVec <> 0 ->
  radial rVec m = Vector3.multiplyScalar (unitVector rVec) m.
Proof.
  intros H. unfold radial, unitVector. now rewrite normalize_nonzero.
Qed.

Lemma length_unitVector (rVec : Vector3) :
  Vector3.length rVec <> 0 -> Vector3.length (unitVector rVec) = 1.
Proof.
  intros H. rewrite <- (length_normalize rVec H).
  unfold unitVector. now rewrite normalize_nonzero.
Qed.

Lemma length_scaled_unitVector (rVec : Vector3) (m : R) :
  Vector3.length rVec <> 0 -> 0 <= m ->
  Vector3.length (Vector3.multiplyScalar (unitVector rVec) m) = m.
Proof.
  intros H Hm.
  rewrite length_multiplyScalar, length_unitVector, Rabs_pos_eq by assumption.
  ring.
Qed.

Lemma multiplyScalar_0 (a : Vector3) :
  Vector3.multiplyScalar a 0 = Vector3.zero.
Proof. unfold Vector3.zero. vec. Qed.

(** The Point law outside the guard. *)
Lemma point_field pos c k :
  type c = POINT ->
  let rVec := Vector3.subVectors pos (position c) in
  let d := Vector3.length rVec in
  0.05 <= d ->
  getFieldFromObject pos c k
  = Vector3.multiplyScalar (unitVector rVec) (k * q c / (d * d)).
Proof.
  intros Ht rVec d Hd. unfold getFieldFromObject. rewrite Ht.
  fold rVec. fold d.
  destruct (Rlt_dec d 0.05); [lra|].
  apply radial_unitVector. fold d. lra.
Qed.

Lemma point_potential pos c k :
  type c = POINT ->
  let d := Vector3.length (Vector3.subVectors pos (position c)) in
  0.05 <= d ->
  calculatePotential pos [c] k = k * q c / d.
Proof.
  intros Ht d Hd. rewrite calculatePotential_single.
  unfold potentialStep. rewrite Ht, distanceTo_length. fold d.
  destruct (Rlt_dec d 0.05); [lra|]. apply Rplus_0_l.
Qed.

(** Outside its radius a sphere of either kind is the Point source. *)
Lemma sphere_outside pos c k :
  type c = SPHERE_CONDUCTING \/ type c = SPHERE_NON_CONDUCTING ->
  radius c <= Vector3.length (Vector3.subVectors pos (position c)) ->
  getFieldFromObject pos c k = getFieldFromObject pos (asPoint c) k
  /\ calculatePotential pos [c] k = calculatePotential pos [asPoint c] k.
Proof.
  intros Ht Hd. rewrite !calculatePotential_single.
  unfold getFieldFromObject, potentialStep. rewrite !distanceTo_length.
  simpl.
  set (d := Vector3.length (Vector3.subVectors pos (position c))) in *.
  destruct (Rlt_dec d 0.05); [split; reflexivity|].
  destruct Ht as [-> | ->]; destruct (Rge_dec d (radius c)); try lra;
    split; reflexivity.
Qed.

Lemma sphere_outside_formula pos c k :
  type c = SPHERE_CONDUCTING \/ type c = SPHERE_NON_CONDUCTING ->
  let rVec := Vector3.subVectors pos (position c) in
  let d := Vector3.length rVec in
  0.05 <= d -> radius c <= d ->
  getFieldFromObject pos c k
  = Vector3.multiplyScalar (unitVector rVec) (k * q c / (d * d))
  /\ calculatePotential pos [c] k = k * q c / d.
Proof.
  intros Ht rVec d H1 H2.
  destruct (sphere_outside pos c k Ht H2) as [-> ->].
  split.
  - exact (point_field pos (asPoint c) k eq_refl H1).
  - exact (point_potential pos (asPoint c) k eq_refl H1).
Qed.

Lemma conducting_inside pos c k :
  type c = SPHERE_CONDUCTING ->
  let d := Vector3.length (Vector3.subVectors pos (position c)) in
  0.05 <= d -> d < radius c ->
  getFieldFromObject pos c k = Vector3.zero
  /\ calculatePotential pos [c] k = k * q c / radius c.
Proof.
  intros Ht d H1 H2. rewrite calculatePotential_single.
  unfold getFieldFromObject, potentialStep.
  rewrite Ht, distanceTo_length. fold d.
  destruct (Rlt_dec d 0.05); [lra|].
  destruct (Rge_dec d (radius c)); [lra|].
  split; [reflexivity | apply Rplus_0_l].
Qed.

Lemma nonConducting_inside pos c k :
  type c = SPHERE_NON_CONDUCTING ->
  let rVec := Vector3.subVectors pos (position c) in
  let d := Vector3.length rVec in
  0.05 <= d -> d < radius c ->
  getFieldFromObject pos c k
  = Vector3.multiplyScalar (unitVector rVec)
      (k * q c * d / (radius c * radius c * radius c))
  /\ calculatePotential pos [c] k
     = (k * q c / (2 * radius c)) * (3 - d * d / (radius c * radius c)).
Proof.
  intros Ht rVec d H1 H2. rewrite calculatePotential_single.
  unfold getFieldFromObject, potentialStep.
  rewrite Ht, distanceTo_length. fold rVec. fold d.
  destruct (Rlt_dec d 0.05); [lra|].
  destruct (Rge_dec d (radius c)); [lra|].
  split; [|apply Rplus_0_l].
  apply radial_unitVector. fold d. lra.
Qed.

(** C3. A SPHERE_CONDUCTING source of radius [R]: at [0.05 <= d < R] the
    field is the zero vector and the potential is [k * q / R]; at [d >= R]
    field and potential are those of the Point source at the same place,
    which at [d >= 0.05] are [k * q / d^2] along the radial unit vector and
    [k * q / d].  With [q = 5], [R = 1], [k = 1]: at [d = 0.5] the field is
    the zero vector and its magnitude is [0]; at [d = 2] the field is
    [1.25] times the radial unit vector and its magnitude is [1.25]. *)
Theorem C3_conducting_sphere (pos : Vector3) (c : ChargeObject) (k : R) :
  type c = SPHERE_CONDUCTING ->
  let rVec := Vector3.subVectors pos (position c) in
  let d := Vector3.length rVec in
  (0.05 <= d -> d < radius c ->
     getFieldFromObject pos c k = Vector3.zero
     /\ calculatePotential pos [c] k = k * q c / radius c)
  /\ (radius c <= d ->
     getFieldFromObject pos c k = getFieldFromObject pos (asPoint c) k
     /\ calculatePotential pos [c] k = calculatePotential pos [asPoint c] k)
  /\ (0.05 <= d -> radius c <= d ->
     getFieldFromObject pos c k
       = Vector3.multiplyScalar (unitVector rVec) (k * q c / (d * d))
     /\ Vector3.length (unitVector rVec) = 1
     /\ calculatePotential pos [c] k = k * q c / d)
  /\ (q c = 5 -> radius c = 1 -> k = 1 ->
     (d = 0.5 ->
        getFieldFromObject pos c k = Vector3.zero
        /\ magnitude (calculateElectricField pos [c] k) = 0)
     /\ (d = 2 ->
        getFieldFromObject pos c k
          = Vector3.multiplyScalar (unitVector rVec) 1.25
        /\ Vector3.length (unitVector rVec) = 1
        /\ magnitude (calculateElectricField pos [c] k) = 1.25)).
Proof.
  intros Ht rVec d.
  assert (Hmag : magnitude (calculateElectricField pos [c] k)
                 = Vector3.length (getFieldFromObject pos c k)).
  { unfold calculateElectricField; simpl. now rewrite add_zero_l. }
  split; [|split; [|split]].
  - intros H1 H2. now apply conducting_inside.
  - intros H. apply sphere_outside; auto.
  - intros H1 H2.
    destruct (sphere_outside_formula pos c k (or_introl Ht) H1 H2) as [Hf Hp].
    repeat split; try assumption.
    apply length_unitVector. fold d. lra.
  - intros Hq HR Hk. split; intros Hd.
    + destruct (conducting_inside pos c k Ht) as [Hf _];
        [fold rVec; fold d; lra .. |].
      rewrite Hmag, Hf. split; [reflexivity | apply length_zero].
    + destruct (sphere_outside_formula pos c k (or_introl Ht)) as [Hf _];
        [fold rVec; fold d; lra .. |].
      fold rVec in Hf. fold d in Hf.
      assert (k * q c / (d * d) = 1.25) as E.
      { rewrite Hq, Hk. generalize d Hd. intros x ->. lra. }
      rewrite E in Hf.
      assert (Vector3.length rVec <> 0) as Hnz by (fold d; lra).
      rewrite Hmag, Hf. repeat split.
      * now apply length_unitVector.
      * apply length_scaled_unitVector; [assumption | lra].
Qed.

(** The field of a SPHERE_NON_CONDUCTING source, at every point, is its
    radial magnitude times the radial unit vector. *)
Lemma nonConducting_field pos c k :
  type c = SPHERE_NON_CONDUCTING ->
  let rVec := Vector3.subVectors pos (position c) in
  getFieldFromObject pos c k
  = Vector3.multiplyScalar (unitVector rVec)
      (nonConductingMagnitude k (q c) (radius c) (Vector3.length rVec)).
Proof.
  intros Ht rVec. unfold getFieldFromObject, nonConductingMagnitude.
  rewrite Ht. fold rVec.
  set (d := Vector3.length rVec).
  destruct (Rlt_dec d 0.05).
  - now rewrite multiplyScalar_0.
  - destruct (Rge_dec d (radius c));
      apply radial_unitVector; fold d; lra.
Qed.

(** The radial magnitude is continuous at the radius, when the radius lies
    outside the guard. *)
Lemma nonConductingMagnitude_continuous (k q rad : R) :
  0.05 < rad -> continuity_pt (nonConductingMagnitude k q rad) rad.
Proof.
  intros HR. set (R := rad) in *.
  assert (continuity_pt (fun d => k * q / (d * d)) R) as C1
      by (reg; nra).
  assert (continuity_pt (fun d => k * q * d / (R * R * R)) R) as C2
      by (reg; try nra).
  assert (k * q * R / (R * R * R) = k * q / (R * R)) as Hagree
      by (field; lra).
  intros eps Heps.
  destruct (C1 eps Heps) as (a1 & Ha1 & H1).
  destruct (C2 eps Heps) as (a2 & Ha2 & H2).
  exists (Rmin (R - 0.05) (Rmin a1 a2)). split.
  - repeat apply Rmin_glb_lt; lra.
  - intros d [HD Hdist].
    assert (Rabs (d - R) < R - 0.05) as B0
        by (eapply Rlt_le_trans; [exact Hdist | apply Rmin_l]).
    assert (Rabs (d - R) < a1) as B1.
    { eapply Rlt_le_trans; [exact Hdist|].
      eapply Rle_trans; [apply Rmin_r | apply Rmin_l]. }
    assert (Rabs (d - R) < a2) as B2.
    { eapply Rlt_le_trans; [exact Hdist|].
      eapply Rle_trans; [apply Rmin_r | apply Rmin_r]. }
    specialize (H1 d (conj HD B1)). specialize (H2 d (conj HD B2)).
    simpl in *. unfold R_dist in *.
    unfold nonConductingMagnitude.
    assert (0.05 < d) as Hd.
    { unfold Rabs in B0. destruct (Rcase_abs (d - R)); lra. }
    destruct (Rlt_dec d 0.05); [lra|].
    destruct (Rlt_dec R 0.05); [lra|].
    destruct (Rge_dec R R); [|lra].
    destruct (Rge_dec d R).
    + exact H1.
    + rewrite <- Hagree. exact H2.
Qed.

Lemma length_on_x_axis (a : R) :
  0 <= a ->
  Vector3.length (Vector3.subVectors (Vector3.mk a 0 0) Vector3.zero) = a.
Proof.
  intros Ha. unfold Vector3.length, Vector3.subVectors; simpl.
  replace ((a - 0) * (a - 0) + (0 - 0) * (0 - 0) + (0 - 0) * (0 - 0))
    with (a * a) by ring.
  now apply sqrt_square.
Qed.

Lemma unitVector_on_x_axis (a : R) :
  0 < a ->
  unitVector (Vector3.subVectors (Vector3.mk a 0 0) Vector3.zero)
  = Vector3.mk 1 0 0.
Proof.
  intros Ha. unfold unitVector. rewrite length_on_x_axis by lra.
  vec; field; lra.
Qed.

(** C3 at the sphere of charge [5] and radius [1], probed on the x axis at
    [0.5] and at [2]. *)
Lemma C3_conducting_sphere_witness :
  getFieldFromObject (Vector3.mk 0.5 0 0) (unitSphere SPHERE_CONDUCTING) 1
    = Vector3.zero
  /\ getFieldFromObject (Vector3.mk 2 0 0) (unitSphere SPHERE_CONDUCTING) 1
    = Vector3.mk 1.25 0 0
  /\ magnitude (calculateElectricField (Vector3.mk 2 0 0)
                  [unitSphere SPHERE_CONDUCTING] 1) = 1.25.
Proof.
  split; [|split].
  - destruct (C3_conducting_sphere (Vector3.mk 0.5 0 0)
                (unitSphere SPHERE_CONDUCTING) 1 eq_refl)
      as (_ & _ & _ & H).
    destruct (H eq_refl eq_refl eq_refl) as [H1 _].
    apply H1. apply length_on_x_axis. lra.
  - destruct (C3_conducting_sphere (Vector3.mk 2 0 0)
                (unitSphere SPHERE_CONDUCTING) 1 eq_refl)
      as (_ & _ & _ & H).
    destruct (H eq_refl eq_refl eq_refl) as [_ H2].
    destruct H2 as (Hf & _); [apply length_on_x_axis; lra|].
    rewrite Hf. simpl. rewrite unitVector_on_x_axis by lra. vec.
  - destruct (C3_conducting_sphere (Vector3.mk 2 0 0)
                (unitSphere SPHERE_CONDUCTING) 1 eq_refl)
      as (_ & _ & _ & H).
    destruct (H eq_refl eq_refl eq_refl) as [_ H2].
    apply H2. apply length_on_x_axis. lra.
Defined.

(** C4. A SPHERE_NON_CONDUCTING source of radius [R]: at [0.05 <= d < R]
    the field is [k * q * d / R^3] times the radial unit vector and the
    potential is [(k * q / (2 * R)) * (3 - d^2 / R^2)]; at [d >= R] field and
    potential are those of the Point source at the same place, which at
    [d >= 0.05] are [k * q / d^2] along the radial unit vector and
    [k * q / d].  At [d = R] the value is also the interior formula taken at
    [R], and the radial magnitude, as a function of [d], is continuous at
    [R] (for [R] outside the guard).  With [q = 5], [R = 1], [k = 1]: at
    [d = 0.5] the field is [2.5] times the radial unit vector, of magnitude
    [2.5]; at [d = 1] it is [5] times the radial unit vector, of magnitude
    [5]. *)
Theorem C4_non_conducting_sphere (pos : Vector3) (c : ChargeObject) (k : R) :
  type c = SPHERE_NON_CONDUCTING ->
  let rVec := Vector3.subVectors pos (position c) in
  let d := Vector3.length rVec in
  (0.05 <= d -> d < radius c ->
     getFieldFromObject pos c k
       = Vector3.multiplyScalar (unitVector rVec)
           (k * q c * d / (radius c * radius c * radius c))
     /\ Vector3.length (unitVector rVec) = 1
     /\ calculatePotential pos [c] k
        = (k * q c / (2 * radius c)) * (3 - d * d / (radius c * radius c)))
  /\ (radius c <= d ->
     getFieldFromObject pos c k = getFieldFromObject pos (asPoint c) k
     /\ calculatePotential pos [c] k = calculatePotential pos [asPoint c] k)
  /\ (0.05 <= d -> radius c <= d ->
     getFieldFromObject pos c k
       = Vector3.multiplyScalar (unitVector rVec) (k * q c / (d * d))
     /\ Vector3.length (unitVector rVec) = 1
     /\ calculatePotential pos [c] k = k * q c / d)
  /\ (0.05 <= d -> d = radius c ->
     getFieldFromObject pos c k
       = Vector3.multiplyScalar (unitVector rVec)
           (k * q c * d / (radius c * radius c * radius c)))
  /\ getFieldFromObject pos c k
     = Vector3.multiplyScalar (unitVector rVec)
         (nonConductingMagnitude k (q c) (radius c) d)
  /\ (0.05 < radius c ->
     continuity_pt (nonConductingMagnitude k (q c) (radius c)) (radius c))
  /\ (q c = 5 -> radius c = 1 -> k = 1 ->
     (d = 0.5 ->
        getFieldFromObject pos c k
          = Vector3.multiplyScalar (unitVector rVec) 2.5
        /\ magnitude (calculateElectricField pos [c] k) = 2.5)
     /\ (d = 1 ->
        getFieldFromObject pos c k
          = Vector3.multiplyScalar (unitVector rVec) 5
        /\ magnitude (calculateElectricField pos [c] k) = 5)).
Proof.
  intros Ht rVec d.
  assert (Hmag : magnitude (calculateElectricField pos [c] k)
                 = Vector3.length (getFieldFromObject pos c k)).
  { unfold calculateElectricField; simpl. now rewrite add_zero_l. }
  assert (Hunit : 0.05 <= d -> Vector3.length (unitVector rVec) = 1).
  { intros H. apply length_unitVector. fold d. lra. }
  split; [|split; [|split; [|split; [|split; [|split]]]]].
  - intros H1 H2.
    destruct (nonConducting_inside pos c k Ht H1 H2) as [Hf Hp].
    auto.
  - intros H. apply sphere_outside; auto.
  - intros H1 H2.
    destruct (sphere_outside_formula pos c k (or_intror Ht) H1 H2) as [Hf Hp].
    auto.
  - intros H1 H2.
    destruct (sphere_outside_formula pos c k (or_intror Ht)) as [Hf _];
      [fold rVec; fold d; lra .. |].
    rewrite Hf. fold rVec. fold d. f_equal.
    generalize d H1 H2. intros x Hx ->. field. lra.
  - now apply nonConducting_field.
  - apply nonConductingMagnitude_continuous.
  - intros Hq HR Hk. split; intros Hd.
    + destruct (nonConducting_inside pos c k Ht) as [Hf _];
        [fold rVec; fold d; lra .. |].
      fold rVec in Hf. fold d in Hf.
      assert (k * q c * d / (radius c * radius c * radius c) = 2.5) as E.
      { rewrite Hq, Hk, HR. generalize d Hd. intros x ->. lra. }
      rewrite E in Hf. rewrite Hmag, Hf. split; [reflexivity|].
      apply length_scaled_unitVector; [fold d; lra | lra].
    + destruct (sphere_outside_formula pos c k (or_intror Ht)) as [Hf _];
        [fold rVec; fold d; lra .. |].
      fold rVec in Hf. fold d in Hf.
      assert (k * q c / (d * d) = 5) as E.
      { rewrite Hq, Hk. generalize d Hd. intros x ->. lra. }
      rewrite E in Hf. rewrite Hmag, Hf. split; [reflexivity|].
      apply length_scaled_unitVector; [fold d; lra | lra].
Qed.

(** C4 at the sphere of charge [5] and radius [1], probed on the x axis at
    [0.5] and at [1]. *)
Lemma C4_non_conducting_sphere_witness :
  getFieldFromObject (Vector3.mk 0.5 0 0) (unitSphere SPHERE_NON_CONDUCTING) 1
    = Vector3.mk 2.5 0 0
  /\ getFieldFromObject (Vector3.mk 1 0 0) (unitSphere SPHERE_NON_CONDUCTING) 1
    = Vector3.mk 5 0 0
  /\ continuity_pt (nonConductingMagnitude 1 5 1) 1.
Proof.
  split; [|split].
  - destruct (C4_non_conducting_sphere (Vector3.mk 0.5 0 0)
                (unitSphere SPHERE_NON_CONDUCTING) 1 eq_refl)
      as (_ & _ & _ & _ & _ & _ & H).
    destruct (H eq_refl eq_refl eq_refl) as [H1 _].
    destruct H1 as (Hf & _); [apply length_on_x_axis; lra|].
    rewrite Hf. simpl. rewrite unitVector_on_x_axis by lra. vec.
  - destruct (C4_non_conducting_sphere (Vector3.mk 1 0 0)
                (unitSphere SPHERE_NON_CONDUCTING) 1 eq_refl)
      as (_ & _ & _ & _ & _ & _ & H).
    destruct (H eq_refl eq_refl eq_refl) as [_ H2].
    destruct H2 as (Hf & _); [apply length_on_x_axis; lra|].
    rewrite Hf. simpl. rewrite unitVector_on_x_axis by lra. vec.
  - destruct (C4_non_conducting_sphere (Vector3.mk 1 0 0)
                (unitSphere SPHERE_NON_CONDUCTING) 1 eq_refl)
      as (_ & _ & _ & _ & _ & H & _).
    apply H. simpl. lra.
Defined.

(** ** The ring on its axis *)

Lemma fold_left_ext_all {A B} (f g : A -> B -> A) (l : list B) (a : A) :
  (forall a b, f a b = g a b) -> fold_left f l a = fold_left g l a.
Proof.
  intros H. revert a. induction l as [|b l IH]; intros a; simpl;
    [reflexivity | now rewrite H, IH].
Qed.

Lemma INR_20 : INR 20 = 20.
Proof. rewrite INR_IZR_INZ. reflexivity. Qed.

Lemma INR_40 : INR 40 = 40.
Proof. rewrite INR_IZR_INZ. reflexivity. Qed.

(** Sample [i + 20] of 40 is opposite to sample [i]. *)
Lemma ringAngle_opposite (i : nat) :
  ringAngle 40 (i + 20) = ringAngle 40 i + PI.
Proof.
  unfold ringAngle. rewrite plus_INR, INR_20, INR_40. field.
Qed.

Section HalfTurn.
Variable f : nat -> R.
Hypothesis f_opposite : forall i, f (i + 20)%nat = - f i.

Lemma rsum_seq_opposite (len : nat) : forall s,
  rsum (map f (seq (s + 20) len)) = - rsum (map f (seq s len)).
Proof.
  induction len as [|len IH]; intros s; simpl.
  - lra.
  - rewrite f_opposite.
    change (S (s + 20)) with (S s + 20)%nat. rewrite IH. lra.
Qed.

Lemma rsum_full_turn : rsum (map f (seq 0 40)) = 0.
Proof.
  change 40%nat with (20 + 20)%nat.
  rewrite seq_app, map_app. unfold rsum. rewrite fold_right_app.
  fold (rsum (map f (seq (0 + 20) 20))).
  rewrite (rsum_seq_opposite 20 0).
  set (l := map f (seq 0 20)).
  assert (forall (l : list R) (a : R),
             fold_right Rplus a l = rsum l + a) as Hacc.
  { clear. induction l as [|x l IH]; intros a; simpl;
      [lra | rewrite IH; unfold rsum; simpl; lra]. }
  rewrite Hacc. lra.
Qed.
End HalfTurn.

Lemma cos_full_turn :
  rsum (map (fun i => cos (ringAngle 40 i)) (seq 0 40)) = 0.
Proof.
  apply rsum_full_turn. intros i.
  rewrite ringAngle_opposite. apply neg_cos.
Qed.

Lemma sin_full_turn :
  rsum (map (fun i => sin (ringAngle 40 i)) (seq 0 40)) = 0.
Proof.
  apply rsum_full_turn. intros i.
  rewrite ringAngle_opposite. apply neg_sin.
Qed.

Section OnAxis.
Variables (c : ChargeObject) (k h : R).

Let rad := radius c.
Let D := sqrt (rad * rad + h * h).

(** The vector from sample [i] to the point on the axis. *)
Lemma onAxis_rSample (n i : nat) :
  Vector3.subVectors (onAxis c h) (ringSamplePos (position c) rad n i)
  = Vector3.mk (- (cos (ringAngle n i) * rad)) h
               (- (sin (ringAngle n i) * rad)).
Proof. unfold onAxis, ringSamplePos, ringAngle. vec. Qed.

(** Every sample is at the same distance from a point of the axis. *)
Lemma onAxis_sample_distance (n i : nat) :
  Vector3.length
    (Vector3.subVectors (onAxis c h) (ringSamplePos (position c) rad n i))
  = D.
Proof.
  rewrite onAxis_rSample. unfold Vector3.length, D; simpl. f_equal.
  pose proof (sin2_cos2 (ringAngle n i)) as H. unfold Rsqr in H.
  set (s := sin (ringAngle n i)) in *. set (co := cos (ringAngle n i)) in *.
  replace (- (co * rad) * - (co * rad) + h * h + - (s * rad) * - (s * rad))
    with (rad * rad * (s * s + co * co) + h * h) by ring.
  rewrite H. ring.
Qed.

Lemma onAxis_center_distance :
  Vector3.length (Vector3.subVectors (onAxis c h) (position c)) = Rabs h.
Proof.
  unfold Vector3.length, Vector3.subVectors, onAxis; simpl.
  rewrite <- sqrt_Rsqr_abs. f_equal. unfold Rsqr. ring.
Qed.

Hypothesis far : D > 0.1.

Lemma D_squared : D * D = rad * rad + h * h.
Proof.
  unfold D. apply sqrt_sqrt.
  destruct (Rle_lt_dec 0 (rad * rad + h * h)) as [H|H]; [exact H|].
  exfalso. unfold D in far. rewrite sqrt_neg_0 in far by lra. lra.
Qed.

(** The amount one sample adds to the field at a point of the axis. *)
Let A := / D * (k * (q c / INR 40) / (D * D)).

Lemma ringFieldStep_onAxis (e : Vector3) (i : nat) :
  ringFieldStep (onAxis c h) c k 40 e i
  = Vector3.add e
      (Vector3.mk (- (cos (ringAngle 40 i) * rad) * A) (h * A)
                  (- (sin (ringAngle 40 i) * rad) * A)).
Proof.
  unfold ringFieldStep. fold rad.
  rewrite onAxis_sample_distance.
  destruct (Rgt_dec D 0.1) as [_|H]; [|contradiction].
  f_equal. rewrite normalize_nonzero;
    rewrite onAxis_sample_distance; [|lra].
  rewrite onAxis_rSample. unfold A. vec; unfold Rdiv; ring.
Qed.

Lemma vsum_onAxis (l : list nat) :
  vsum (map (fun i =>
               Vector3.mk (- (cos (ringAngle 40 i) * rad) * A) (h * A)
                          (- (sin (ringAngle 40 i) * rad) * A)) l)
  = Vector3.mk
      (- rad * A * rsum (map (fun i => cos (ringAngle 40 i)) l))
      (h * A * INR (List.length l))
      (- rad * A * rsum (map (fun i => sin (ringAngle 40 i)) l)).
Proof.
  induction l as [|i l IH].
  - simpl. unfold Vector3.zero. vec.
  - cbn [map vsum fold_right List.length]. fold (vsum
      (map (fun i => Vector3.mk (- (cos (ringAngle 40 i) * rad) * A) (h * A)
                       (- (sin (ringAngle 40 i) * rad) * A)) l)).
    rewrite IH, S_INR. unfold rsum. vec.
Qed.

(** The 40 samples add up to a vector along the axis. *)
Lemma ring_loop_onAxis :
  fold_left (ringFieldStep (onAxis c h) c k 40) (seq 0 40) Vector3.zero
  = Vector3.mk 0 (k * q c * h / ((rad * rad + h * h) * D)) 0.
Proof.
  rewrite (fold_left_ext_all _ _ _ _ ringFieldStep_onAxis).
  rewrite fold_left_vadd, add_zero_l, vsum_onAxis.
  rewrite cos_full_turn, sin_full_turn, length_seq.
  rewrite <- D_squared. unfold A. rewrite INR_40.
  vec. field. lra.
Qed.
End OnAxis.

Lemma Rpower_three_halves (x : R) : 0 < x -> Rpower x 1.5 = x * sqrt x.
Proof.
  intros Hx. replace 1.5 with (1 + / 2) by lra.
  rewrite Rpower_plus, Rpower_1, Rpower_sqrt by assumption. reflexivity.
Qed.

(** C8. A RING source, probed on its axis at height [h] with
    [|h| >= 0.05] and the samples beyond their guard
    ([sqrt (R^2 + h^2) > 0.1]): the field computed with the 40 samples is
    directed along the axis and is within 1% of
    [k * q * h / (R^2 + h^2)^1.5]; over the real numbers it is that
    value. *)
Theorem C8_ring_on_axis (c : ChargeObject) (k h : R) :
  type c = RING ->
  0.05 <= Rabs h ->
  sqrt (radius c * radius c + h * h) > 0.1 ->
  let E := getFieldFromObject (onAxis c h) c k in
  let exact := Vector3.mk 0 (ringAxisExact k (q c) (radius c) h) 0 in
  Vector3.x E = 0 /\ Vector3.z E = 0
  /\ Rabs (Vector3.y E - ringAxisExact k (q c) (radius c) h)
     <= 0.01 * Rabs (ringAxisExact k (q c) (radius c) h)
  /\ Vector3.length (Vector3.subVectors E exact)
     <= 0.01 * Vector3.length exact
  /\ E = exact.
Proof.
  intros Ht Hh Hfar E exact.
  assert (E = exact) as HE.
  { unfold E, exact, getFieldFromObject.
    rewrite onAxis_center_distance, Ht.
    destruct (Rlt_dec (Rabs h) 0.05); [lra|].
    rewrite ring_loop_onAxis by assumption.
    unfold ringAxisExact. rewrite Rpower_three_halves; [reflexivity|].
    rewrite <- D_squared by assumption. nra. }
  rewrite HE. repeat split.
  - unfold exact; simpl. rewrite Rminus_diag, Rabs_R0.
    pose proof (Rabs_pos (ringAxisExact k (q c) (radius c) h)). lra.
  - replace (Vector3.subVectors exact exact) with Vector3.zero
      by (unfold Vector3.zero; vec).
    rewrite length_zero. pose proof (length_nonneg exact). lra.
Qed.

Lemma sqrt_25_16 : sqrt (0.75 * 0.75 + 1 * 1) = 1.25.
Proof.
  replace (0.75 * 0.75 + 1 * 1) with (1.25 * 1.25) by lra.
  apply sqrt_square. lra.
Qed.

(** C8 at a ring of radius [0.75] probed at height [1]: the distance to
    every sample is [1.25] and the field is [1 / 1.25^3 = 0.512] along the
    axis. *)
Lemma C8_ring_on_axis_witness :
  getFieldFromObject (Vector3.mk 0 1 0) ring075 1 = Vector3.mk 0 0.512 0.
Proof.
  assert (0.05 <= Rabs 1) as H1 by (rewrite Rabs_R1; lra).
  assert (sqrt (radius ring075 * radius ring075 + 1 * 1) > 0.1) as H2
      by (simpl; rewrite sqrt_25_16; lra).
  destruct (C8_ring_on_axis ring075 1 1 eq_refl H1 H2) as (_ & _ & _ & _ & H).
  replace (Vector3.mk 0 1 0) with (onAxis ring075 1)
    by (unfold onAxis; vec).
  rewrite H. unfold ringAxisExact; simpl.
  rewrite Rpower_three_halves by lra. rewrite sqrt_25_16. vec.
Defined.

(** ** The guards against singularities *)

(** The Point law for one sample of a ring, outside the guard of the Point
    law. *)
Lemma samplePoint_field pos c k n i :
  let rSample :=
    Vector3.subVectors pos (ringSamplePos (position c) (radius c) n i) in
  let dR := Vector3.length rSample in
  0.05 <= dR ->
  getFieldFromObject pos (samplePoint c n i) k
  = Vector3.multiplyScalar (Vector3.normalize rSample)
      (k * (q c / INR n) / (dR * dR)).
Proof.
  intros rSample dR H. unfold getFieldFromObject; simpl.
  fold rSample. fold dR.
  destruct (Rlt_dec dR 0.05); [lra | reflexivity].
Qed.

Lemma samplePoint_potential pos c k n i :
  let d := Vector3.distanceTo pos
             (ringSamplePos (position c) (radius c) n i) in
  0.05 <= d ->
  calculatePotential pos [samplePoint c n i] k = k * (q c / INR n) / d.
Proof.
  intros d H. rewrite calculatePotential_single.
  unfold potentialStep; simpl. fold d.
  destruct (Rlt_dec d 0.05); [lra | apply Rplus_0_l].
Qed.

(** The guard on the distance to the source. *)
Lemma guard_source pos c k :
  Vector3.length (Vector3.subVectors pos (position c)) < 0.05 ->
  getFieldFromObject pos c k = Vector3.zero
  /\ (forall p, potentialStep pos k p c = p)
  /\ calculatePotential pos [c] k = 0.
Proof.
  intros H. rewrite calculatePotential_single.
  unfold getFieldFromObject, potentialStep. rewrite distanceTo_length.
  destruct (Rlt_dec _ 0.05); [|contradiction].
  repeat split.
Qed.

(** The guard on the distance to a sample, in the field of a ring. *)
Lemma guard_field_sample pos c k e i :
  let dR := Vector3.length
              (Vector3.subVectors pos
                 (ringSamplePos (position c) (radius c) 40 i)) in
  (dR <= 0.1 -> ringFieldStep pos c k 40 e i = e)
  /\ (0.1 < dR ->
      ringFieldStep pos c k 40 e i
      = Vector3.add e (getFieldFromObject pos (samplePoint c 40 i) k)).
Proof.
  intros dR. unfold ringFieldStep. fold dR.
  destruct (Rgt_dec dR 0.1) as [H|H]; split; intros H'; try lra.
  - rewrite samplePoint_field; [reflexivity | fold dR; lra].
  - reflexivity.
Qed.

(** The guard on the distance to a sample, in the potential of a ring. *)
Lemma guard_potential_sample pos c k p i :
  let d := Vector3.distanceTo pos
             (ringSamplePos (position c) (radius c) 30 i) in
  (d <= 0.05 -> ringPotentialStep pos c k 30 p i = p)
  /\ (0.05 < d ->
      ringPotentialStep pos c k 30 p i
      = p + calculatePotential pos [samplePoint c 30 i] k).
Proof.
  intros d. unfold ringPotentialStep. fold d.
  destruct (Rgt_dec d 0.05) as [H|H]; split; intros H'; try lra.
  rewrite samplePoint_potential; [reflexivity | fold d; lra].
Qed.

Lemma ringFieldStep_term pos c k e i :
  ringFieldStep pos c k 40 e i = Vector3.add e (fieldSampleTerm pos c k i).
Proof.
  destruct (guard_field_sample pos c k e i) as [Hnear Hfar].
  unfold fieldSampleTerm. destruct (Rgt_dec _ 0.1) as [H|H].
  - apply Hfar. lra.
  - rewrite add_zero_r. apply Hnear. lra.
Qed.

Lemma ringPotentialStep_term pos c k p i :
  ringPotentialStep pos c k 30 p i = p + potentialSampleTerm pos c k i.
Proof.
  destruct (guard_potential_sample pos c k p i) as [Hnear Hfar].
  unfold potentialSampleTerm. destruct (Rgt_dec _ 0.05) as [H|H].
  - apply Hfar. lra.
  - rewrite Rplus_0_r. apply Hnear. lra.
Qed.

(** The field and the potential of a ring outside the guard on the distance
    to its centre: the sums of what the samples add. *)
Lemma ring_sums pos c k :
  type c = RING ->
  0.05 <= Vector3.length (Vector3.subVectors pos (position c)) ->
  getFieldFromObject pos c k
    = vsum (map (fieldSampleTerm pos c k) (seq 0 40))
  /\ calculatePotential pos [c] k
    = rsum (map (potentialSampleTerm pos c k) (seq 0 30)).
Proof.
  intros Ht Hd. rewrite calculatePotential_single.
  unfold getFieldFromObject, potentialStep.
  rewrite distanceTo_length, Ht.
  destruct (Rlt_dec _ 0.05); [lra|]. split.
  - rewrite (fold_left_ext_all _ _ _ _ (ringFieldStep_term pos c k)).
    rewrite fold_left_vadd. apply add_zero_l.
  - rewrite (fold_left_ext_all _ _ _ _ (ringPotentialStep_term pos c k)).
    rewrite (fold_left_radd (fun p i => p + potentialSampleTerm pos c k i))
      by (intros; lra).
    rewrite Rplus_0_l. f_equal. apply map_ext. intros. apply Rplus_0_l.
Qed.

(** C1 (amended). A source closer than [0.05] to the probe contributes the
    zero vector to the field and [0] to the potential.  A RING source at
    [0.05] or more is the sum of what its samples add (40 of charge
    [q / 40] in the field, 30 of charge [q / 30] in the potential), each
    behind a guard of its own: in the field a sample at [0.1] or less from
    the probe adds nothing and a sample farther than [0.1] adds its
    Point-law term; in the potential a sample at [0.05] or less adds
    nothing and a sample farther than [0.05] adds its Point-law term. *)
Theorem C1_guards (pos : Vector3) (c : ChargeObject) (k : R) :
  (Vector3.length (Vector3.subVectors pos (position c)) < 0.05 ->
     getFieldFromObject pos c k = Vector3.zero
     /\ (forall p, potentialStep pos k p c = p)
     /\ calculatePotential pos [c] k = 0)
  /\ (type c = RING ->
      0.05 <= Vector3.length (Vector3.subVectors pos (position c)) ->
      getFieldFromObject pos c k
        = vsum (map (fieldSampleTerm pos c k) (seq 0 40))
      /\ calculatePotential pos [c] k
        = rsum (map (potentialSampleTerm pos c k) (seq 0 30)))
  /\ (forall i,
        let rSample :=
          Vector3.subVectors pos
            (ringSamplePos (position c) (radius c) 40 i) in
        let dR := Vector3.length rSample in
        (dR <= 0.1 ->
           fieldSampleTerm pos c k i = Vector3.zero
           /\ forall e, ringFieldStep pos c k 40 e i = e)
        /\ (0.1 < dR ->
           fieldSampleTerm pos c k i
             = getFieldFromObject pos (samplePoint c 40 i) k
           /\ fieldSampleTerm pos c k i
             = Vector3.multiplyScalar (Vector3.normalize rSample)
                 (k * (q c / 40) / (dR * dR))))
  /\ (forall i,
        let d := Vector3.distanceTo pos
                   (ringSamplePos (position c) (radius c) 30 i) in
        (d <= 0.05 ->
           potentialSampleTerm pos c k i = 0
           /\ forall p, ringPotentialStep pos c k 30 p i = p)
        /\ (0.05 < d ->
           potentialSampleTerm pos c k i
             = calculatePotential pos [samplePoint c 30 i] k
           /\ potentialSampleTerm pos c k i = k * (q c / 30) / d)).
Proof.
  split; [|split; [|split]].
  - apply guard_source.
  - apply ring_sums.
  - intros i rSample dR. unfold fieldSampleTerm. fold rSample. fold dR.
    destruct (Rgt_dec dR 0.1) as [H|H]; split; intros H'; try lra.
    + split; [reflexivity|].
      rewrite samplePoint_field by (fold rSample; fold dR; lra).
      fold rSample. fold dR. rewrite INR_40. reflexivity.
    + split; [reflexivity|]. intros e.
      now apply (guard_field_sample pos c k e i).
  - intros i d. unfold potentialSampleTerm. fold d.
    destruct (Rgt_dec d 0.05) as [H|H]; split; intros H'; try lra.
    + split; [reflexivity|].
      rewrite samplePoint_potential by (fold d; lra). fold d.
      replace (INR 30) with 30 by (rewrite INR_IZR_INZ; reflexivity).
      reflexivity.
    + split; [reflexivity|]. intros p.
      now apply (guard_potential_sample pos c k p i).
Qed.

(** C1 at a point charge probed at distance [0.01]. *)
Lemma C1_guards_witness :
  getFieldFromObject (Vector3.mk 0.01 0 0) (unitSphere POINT) 1 = Vector3.zero
  /\ calculatePotential (Vector3.mk 0.01 0 0) [unitSphere POINT] 1 = 0.
Proof.
  destruct (C1_guards (Vector3.mk 0.01 0 0) (unitSphere POINT) 1)
    as (H & _).
  destruct H as (Hf & _ & Hp).
  - simpl. rewrite length_on_x_axis; lra.
  - split; assumption.
Defined.

Lemma sqrt_smallRing : sqrt (0.048 * 0.048 + 0.064 * 0.064) = 0.08.
Proof.
  replace (0.048 * 0.048 + 0.064 * 0.064) with (0.08 * 0.08) by lra.
  apply sqrt_square. lra.
Qed.

Lemma onAxis_smallRing : onAxis smallRing 0.064 = Vector3.mk 0 0.064 0.
Proof. unfold onAxis. vec. Qed.

(** Every sample of [smallRing] is at [0.08] from the probe. *)
Lemma smallRing_sample_distance (i : nat) :
  Vector3.length
    (Vector3.subVectors (Vector3.mk 0 0.064 0)
       (ringSamplePos (position smallRing) (radius smallRing) 40 i))
  = 0.08.
Proof.
  rewrite <- onAxis_smallRing, onAxis_sample_distance. simpl.
  apply sqrt_smallRing.
Qed.

Lemma ringAngle_0 (n : nat) : ringAngle n 0 = 0.
Proof. unfold ringAngle. simpl. unfold Rdiv. ring. Qed.

Lemma unitRing_sample_0 :
  ringSamplePos (position unitRing) (radius unitRing) 30 0
  = Vector3.mk 1 0 0.
Proof.
  unfold ringSamplePos. fold (ringAngle 30 0).
  rewrite ringAngle_0, cos_0, sin_0. vec.
Qed.

Lemma unitRing_sample_0_distance :
  Vector3.distanceTo (Vector3.mk 1.05 0 0)
    (ringSamplePos (position unitRing) (radius unitRing) 30 0) = 0.05.
Proof.
  rewrite unitRing_sample_0. unfold Vector3.distanceTo; simpl.
  replace ((1.05 - 1) * (1.05 - 1) + (0 - 0) * (0 - 0) + (0 - 0) * (0 - 0))
    with (0.05 * 0.05) by lra.
  apply sqrt_square. lra.
Qed.

(** C1, counterexample.  Field: the probe [(0, 0.064, 0)] is at [0.064]
    from the centre of [smallRing] and at [0.08] from its sample 0, so both
    distances are [0.05] or more; the Point-law term of the sample has
    [y]-coordinate [125], yet the loop adds nothing for it, and the field
    of the ring at the probe is the zero vector.  Potential: the probe
    [(1.05, 0, 0)] is at [1.05] from the centre of [unitRing] and at
    [0.05] from its sample 0; the Point-law term of the sample is [20],
    yet the loop adds nothing for it. *)
Lemma C1_sample_guard_counterexample :
  0.05 <= Vector3.length
            (Vector3.subVectors (Vector3.mk 0 0.064 0) (position smallRing))
  /\ Vector3.length
       (Vector3.subVectors (Vector3.mk 0 0.064 0)
          (ringSamplePos (position smallRing) (radius smallRing) 40 0))
     = 0.08
  /\ Vector3.y (getFieldFromObject (Vector3.mk 0 0.064 0)
                  (samplePoint smallRing 40 0) 1) = 125
  /\ ringFieldStep (Vector3.mk 0 0.064 0) smallRing 1 40 Vector3.zero 0
     = Vector3.zero
  /\ getFieldFromObject (Vector3.mk 0 0.064 0) smallRing 1 = Vector3.zero
  /\ Vector3.distanceTo (Vector3.mk 1.05 0 0) (position unitRing) = 1.05
  /\ Vector3.distanceTo (Vector3.mk 1.05 0 0)
       (ringSamplePos (position unitRing) (radius unitRing) 30 0) = 0.05
  /\ calculatePotential (Vector3.mk 1.05 0 0) [samplePoint unitRing 30 0] 1
     = 20
  /\ ringPotentialStep (Vector3.mk 1.05 0 0) unitRing 1 30 0 0 = 0.
Proof.
  assert (Vector3.length
            (Vector3.subVectors (Vector3.mk 0 0.064 0) (position smallRing))
          = 0.064) as Hc.
  { rewrite <- onAxis_smallRing, onAxis_center_distance.
    apply Rabs_pos_eq. lra. }
  assert (forall e i,
             ringFieldStep (Vector3.mk 0 0.064 0) smallRing 1 40 e i = e)
    as Hstep.
  { intros e i. apply (guard_field_sample _ smallRing 1 e i).
    rewrite smallRing_sample_distance. lra. }
  split; [rewrite Hc; lra|].
  split; [apply smallRing_sample_distance|].
  split; [|split; [apply Hstep|split; [|split; [|split; [|split]]]]].
  - rewrite samplePoint_field by (rewrite smallRing_sample_distance; lra).
    rewrite smallRing_sample_distance.
    rewrite normalize_nonzero by (rewrite smallRing_sample_distance; lra).
    rewrite smallRing_sample_distance, INR_40.
    rewrite <- onAxis_smallRing, onAxis_rSample. simpl. lra.
  - destruct (ring_sums (Vector3.mk 0 0.064 0) smallRing 1 eq_refl)
      as [-> _]; [rewrite Hc; lra|].
    rewrite (map_ext _ (fun _ => Vector3.zero)).
    + generalize (seq 0 40). intros l.
      induction l as [|i l IH]; simpl; [|rewrite IH, add_zero_l];
        reflexivity.
    + intros i. unfold fieldSampleTerm.
      rewrite smallRing_sample_distance.
      destruct (Rgt_dec 0.08 0.1); [lra | reflexivity].
  - unfold Vector3.distanceTo; simpl.
    replace ((1.05 - 0) * (1.05 - 0) + (0 - 0) * (0 - 0) + (0 - 0) * (0 - 0))
      with (1.05 * 1.05) by lra.
    apply sqrt_square. lra.
  - apply unitRing_sample_0_distance.
  - rewrite samplePoint_potential
      by (rewrite unitRing_sample_0_distance; lra).
    rewrite unitRing_sample_0_distance.
    replace (INR 30) with 30 by (rewrite INR_IZR_INZ; reflexivity).
    simpl. lra.
  - apply (guard_potential_sample _ unitRing 1 0 0%nat).
    rewrite unitRing_sample_0_distance. lra.
Qed.

(** * Further properties of the engine *)

(** ** The step written as a map *)

(** The force read at index [i] depends on the source at [i] alone, so the
    indexed map of [updateChargeDynamics] is a map. *)
Lemma updateChargeDynamics_map charges dt k damping :
  updateChargeDynamics charges dt k damping
  = map (fun c => integrate c (forceOn charges k c) dt damping) charges.
Proof.
  apply nth_error_ext. intros i.
  rewrite nth_error_map.
  destruct (nth_error charges i) as [c|] eqn:E.
  - now apply updateChargeDynamics_nth.
  - apply nth_error_None. rewrite updateChargeDynamics_length.
    now apply nth_error_None.
Qed.

Lemma integrate_zero_dt c f damping :
  position (integrate c f 0 damping) = position c
  /\ (truthy (isFixed c) = false ->
      velocity (integrate c f 0 damping)
      = Some (Vector3.multiplyScalar (velocityOrZero c) damping)).
Proof.
  unfold integrate, velocityOrZero, Vector3.clone.
  destruct (truthy (isFixed c)); simpl.
  - split; [reflexivity | discriminate].
  - split; [vec|]. intros _. f_equal.
    destruct (velocity c); vec.
Qed.

(** X1. A call of [updateChargeDynamics] with [dt = 0] moves nothing: the
    positions of the output are the positions of the input, in order; a
    source that is not fixed gets its velocity multiplied by [damping]
    (the zero vector when it had none), a fixed one is returned as it
    is. *)
Theorem step_zero_dt (charges : list ChargeObject) (k damping : R) :
  map position (updateChargeDynamics charges 0 k damping)
    = map position charges
  /\ (forall i c,
        nth_error charges i = Some c ->
        exists c',
          nth_error (updateChargeDynamics charges 0 k damping) i = Some c'
          /\ position c' = position c
          /\ (truthy (isFixed c) = false ->
              velocity c'
              = Some (Vector3.multiplyScalar (velocityOrZero c) damping))
          /\ (truthy (isFixed c) = true -> c' = c)).
Proof.
  split.
  - rewrite updateChargeDynamics_map, map_map.
    apply map_ext. intros c. apply integrate_zero_dt.
  - intros i c Hi.
    exists (integrate c (forceOn charges k c) 0 damping).
    split; [now apply updateChargeDynamics_nth|].
    destruct (integrate_zero_dt c (forceOn charges k c) damping) as [Hp Hv].
    repeat split; try assumption.
    apply integrate_fixed.
Qed.

(** X1 at [pinned; free] with a velocity-less free charge. *)
Lemma step_zero_dt_witness :
  exists c',
    nth_error (updateChargeDynamics [pinned; free] 0 1 0.98) 1 = Some c'
    /\ position c' = Vector3.mk 1 0 0
    /\ velocity c' = Some Vector3.zero.
Proof.
  destruct (step_zero_dt [pinned; free] 1 0.98) as [_ H].
  destruct (H 1%nat free eq_refl) as (c' & Hn & Hp & Hv & _).
  exists c'. repeat split; try assumption.
  rewrite (Hv eq_refl). f_equal. unfold Vector3.zero. vec.
Defined.

(** ** A neutral target *)

Lemma ringForce_neutral field target others k (l : list nat) :
  q target = 0 ->
  fold_left (ringForceStepWith field target others k 20) l Vector3.zero
  = Vector3.zero.
Proof.
  intros H. induction l as [|i l IH] using rev_ind; [reflexivity|].
  rewrite fold_left_app; simpl. rewrite IH.
  unfold ringForceStepWith. rewrite H. unfold Vector3.zero.
  vec; unfold Rdiv; ring.
Qed.

(** The force on a target of charge [0]. *)
Lemma netForce_neutral (target : ChargeObject)
    (allCharges : list ChargeObject) (k : R) :
  q target = 0 ->
  calculateNetForce target allCharges k = mkResult Vector3.zero 0.
Proof.
  intros H. unfold calculateNetForce, calculateNetForceWith.
  destruct (Nat.eqb _ 0); [reflexivity|].
  assert (forall v, v = Vector3.zero ->
                    mkResult v (Vector3.length v) = mkResult Vector3.zero 0)
    as Hz by (intros v ->; now rewrite length_zero).
  apply Hz.
  destruct (type target); cbv beta iota zeta delta [orb includesSPHERE].
  - rewrite H. apply multiplyScalar_0.
  - now apply ringForce_neutral.
  - rewrite H. apply multiplyScalar_0.
  - rewrite H. apply multiplyScalar_0.
Qed.

(** X2. A target of charge [0] feels no force, whatever its geometry and
    the other sources: [calculateNetForce] returns the zero vector with
    magnitude [0], and a call of [updateChargeDynamics] only damps its
    velocity. *)
Theorem neutral_target_no_force (target : ChargeObject)
    (allCharges : list ChargeObject) (k : R) :
  q target = 0 ->
  calculateNetForce target allCharges k = mkResult Vector3.zero 0
  /\ (forall dt damping i,
        nth_error allCharges i = Some target ->
        truthy (isFixed target) = false ->
        exists c',
          nth_error (updateChargeDynamics allCharges dt k damping) i
            = Some c'
          /\ velocity c'
             = Some (Vector3.multiplyScalar (velocityOrZero target) damping)).
Proof.
  intros H. split; [now apply netForce_neutral|].
  intros dt damping i Hi Hfree.
  exists (integrate target (forceOn allCharges k target) dt damping).
  split; [now apply updateChargeDynamics_nth|].
  unfold forceOn. rewrite Hfree, netForce_neutral by assumption.
  destruct (integrate_free target Vector3.zero dt damping Hfree)
    as (Hv & _).
  simpl. rewrite Hv. f_equal. unfold eulerVelocity; simpl.
  vec; unfold Rdiv; ring.
Qed.

(** X2 at a neutral ring next to the pinned charge. *)
Lemma neutral_target_no_force_witness :
  let ring := mkCharge "n" RING (Vector3.mk 3 0 0) 0 1 None None None None in
  calculateNetForce ring [pinned; ring] 1 = mkResult Vector3.zero 0.
Proof.
  intros ring. apply (neutral_target_no_force ring [pinned; ring] 1).
  reflexivity.
Defined.

(** ** A source on its own *)

Lemma forceOn_lone c k : forceOn [c] k c = Vector3.zero.
Proof.
  unfold forceOn. destruct (truthy (isFixed c)); [reflexivity|].
  unfold calculateNetForce.
  rewrite calculateNetForceWith_alone; [reflexivity|].
  intros c' [<-|[]]. reflexivity.
Qed.

Lemma sameSource_trans a b c :
  sameSource a b -> sameSource b c -> sameSource a c.
Proof.
  unfold sameSource.
  intros (A1 & A2 & A3 & A4 & A5 & A6 & A7) (B1 & B2 & B3 & B4 & B5 & B6 & B7).
  repeat split; congruence.
Qed.

Lemma sameSource_refl a : sameSource a a.
Proof. unfold sameSource. repeat split. Qed.

Lemma geometricSum_shift (n : nat) (d : R) :
  d + d * geometricSum n d = geometricSum (S n) d.
Proof.
  induction n as [|n IH].
  - simpl. ring.
  - change (geometricSum (S (S n)) d)
      with (geometricSum n d + d ^ S n + d * d ^ S n).
    change (geometricSum (S n) d) with (geometricSum n d + d ^ S n) in *.
    replace (d + d * (geometricSum n d + d ^ S n))
      with (d + d * geometricSum n d + d * d ^ S n) by ring.
    now rewrite IH.
Qed.

(** X3. A source that is not fixed and alone in the collection drifts
    freely: after [n] calls of [updateChargeDynamics] with the same [dt]
    and [damping] the collection is still one source, with velocity
    [v * damping^n] and position
    [p + v * dt * (damping + ... + damping^n)], where [p] and [v] are the
    position and velocity it started with; [k] and its charge, geometry
    and mass play no part. *)
Theorem lone_source_drift (n : nat) : forall (c : ChargeObject)
    (dt k damping : R),
  truthy (isFixed c) = false ->
  exists c',
    runSteps (repeat (dt, k, damping) n) [c] = [c']
    /\ velocityOrZero c'
       = Vector3.multiplyScalar (velocityOrZero c) (damping ^ n)
    /\ position c'
       = Vector3.add (position c)
           (Vector3.multiplyScalar (velocityOrZero c)
              (dt * geometricSum n damping))
    /\ sameSource c c'.
Proof.
  induction n as [|n IH]; intros c dt k damping Hfree.
  - exists c. simpl. repeat split; try apply sameSource_refl; vec.
  - assert (updateChargeDynamics [c] dt k damping
            = [integrate c Vector3.zero dt damping]) as Hstep.
    { rewrite updateChargeDynamics_map. simpl. now rewrite forceOn_lone. }
    destruct (integrate_free c Vector3.zero dt damping Hfree)
      as (Hv & Hp & Hs).
    set (c1 := integrate c Vector3.zero dt damping) in *.
    assert (truthy (isFixed c1) = false) as Hfree1.
    { destruct Hs as (_ & _ & _ & _ & _ & _ & E). now rewrite E. }
    destruct (IH c1 dt k damping Hfree1) as (c' & Hrun & Hv' & Hp' & Hs').
    exists c'. split; [|split; [|split]].
    + cbn [repeat runSteps fold_left]. rewrite Hstep. exact Hrun.
    + rewrite Hv'. unfold velocityOrZero at 1. rewrite Hv.
      unfold eulerVelocity; simpl. vec; unfold Rdiv; ring.
    + rewrite Hp', Hp. unfold velocityOrZero at 2. rewrite Hv.
      rewrite <- geometricSum_shift.
      unfold eulerPosition, eulerVelocity; simpl. vec; unfold Rdiv; ring.
    + eapply sameSource_trans; eassumption.
Qed.

(** X3 at a unit point charge with velocity [(1, 0, 0)], two calls with
    [dt = 1] and [damping = 0.5]: it ends at [(1.75, 0, 0)] with velocity
    [(0.25, 0, 0)]. *)
Lemma lone_source_drift_witness :
  let c := mkCharge "a" POINT (Vector3.mk 1 0 0) 1 0.2 None None
             (Some (Vector3.mk 1 0 0)) None in
  exists c',
    runSteps [(1, 7, 0.5); (1, 7, 0.5)] [c] = [c']
    /\ velocityOrZero c' = Vector3.mk 0.25 0 0
    /\ position c' = Vector3.mk 1.75 0 0.
Proof.
  intros c.
  destruct (lone_source_drift 2 c 1 7 0.5 eq_refl) as (c' & Hr & Hv & Hp & _).
  exists c'. split; [exact Hr|]. split.
  - rewrite Hv. simpl. vec.
  - rewrite Hp. simpl. vec.
Defined.

(** ** Action and reaction between Point sources *)

Lemma vsum_map_add {A} (f g : A -> Vector3) (l : list A) :
  vsum (map (fun a => Vector3.add (f a) (g a)) l)
  = Vector3.add (vsum (map f l)) (vsum (map g l)).
Proof.
  induction l as [|a l IH]; simpl.
  - now rewrite add_zero_l.
  - rewrite IH. vec.
Qed.

Lemma vsum_map_scale {A} (f : A -> Vector3) (s : R) (l : list A) :
  vsum (map (fun a => Vector3.multiplyScalar (f a) s) l)
  = Vector3.multiplyScalar (vsum (map f l)) s.
Proof.
  induction l as [|a l IH]; simpl.
  - unfold Vector3.zero. vec.
  - rewrite IH. vec.
Qed.

Lemma vsum_map_zero {A} (f : A -> Vector3) (l : list A) :
  (forall a, In a l -> f a = Vector3.zero) ->
  vsum (map f l) = Vector3.zero.
Proof.
  intros H. induction l as [|a l IH]; simpl; [reflexivity|].
  rewrite H by now left. rewrite add_zero_l.
  apply IH. intros b Hb. apply H. now right.
Qed.

(** A sum over the sources that pass a test is the sum over all of them of
    the terms cut to zero where the test fails. *)
Lemma vsum_filter {A} (f : A -> Vector3) (t : A -> bool) (l : list A) :
  vsum (map f (filter t l))
  = vsum (map (fun a => if t a then f a else Vector3.zero) l).
Proof.
  induction l as [|a l IH]; simpl; [reflexivity|].
  destruct (t a); simpl; rewrite IH; [reflexivity|].
  now rewrite add_zero_l.
Qed.

Lemma opposite_zero_eq (v : Vector3) : v = opposite v -> v = Vector3.zero.
Proof.
  destruct v as [a b c]. unfold opposite, Vector3.multiplyScalar; simpl.
  intros H. injection H as Ha Hb Hc. unfold Vector3.zero. vec.
Qed.

(** A double sum of terms that change sign when the two indices are
    exchanged is zero. *)
Lemma vsum_antisymmetric {A} (g : A -> A -> Vector3) (l : list A) :
  (forall a b, In a l -> In b l -> g a b = opposite (g b a)) ->
  vsum (map (fun a => vsum (map (g a) l)) l) = Vector3.zero.
Proof.
  induction l as [|a l IH]; intros H; [reflexivity|].
  assert (g a a = Vector3.zero) as Haa
      by (apply opposite_zero_eq, H; now left).
  change (vsum (map (fun a0 => vsum (map (g a0) (a :: l))) (a :: l)))
    with (Vector3.add
            (Vector3.add (g a a) (vsum (map (g a) l)))
            (vsum (map (fun a0 => Vector3.add (g a0 a)
                                    (vsum (map (g a0) l))) l))).
  rewrite Haa, add_zero_l, vsum_map_add.
  rewrite IH by (intros; apply H; now right).
  rewrite add_zero_r, <- vsum_map_add.
  apply vsum_map_zero. intros b Hb.
  rewrite (H a b) by (simpl; auto).
  unfold opposite, Vector3.zero. vec.
Qed.

Lemma length_subVectors_sym (a b : Vector3) :
  Vector3.length (Vector3.subVectors a b)
  = Vector3.length (Vector3.subVectors b a).
Proof.
  unfold Vector3.length, Vector3.subVectors; simpl. f_equal. ring.
Qed.

Lemma string_eqb_sym (s t : string) : String.eqb s t = String.eqb t s.
Proof.
  destruct (String.eqb_spec s t) as [E|E], (String.eqb_spec t s) as [E'|E'];
    congruence.
Qed.

(** Action and reaction: the force on [a] due to [b] is the opposite of
    the force on [b] due to [a], for Point sources. *)
Lemma pairForce_opposite (k : R) (a b : ChargeObject) :
  type a = POINT -> type b = POINT ->
  pairForce k a b = opposite (pairForce k b a).
Proof.
  intros Ha Hb. unfold pairForce. rewrite (string_eqb_sym (id b) (id a)).
  destruct (String.eqb (id a) (id b)).
  - unfold opposite, Vector3.zero. vec.
  - unfold getFieldFromObject. rewrite Ha, Hb.
    rewrite (length_subVectors_sym (position b) (position a)).
    set (r := Vector3.subVectors (position a) (position b)).
    set (d := Vector3.length r).
    destruct (Rlt_dec d 0.05).
    + unfold opposite, Vector3.zero. vec.
    + assert (Vector3.length r <> 0) as Hr by (fold d; lra).
      assert (Vector3.length
                (Vector3.subVectors (position b) (position a)) <> 0) as Hr'.
      { rewrite length_subVectors_sym. exact Hr. }
      unfold radial. rewrite !normalize_nonzero by assumption.
      rewrite (length_subVectors_sym (position b) (position a)).
      fold r. fold d. unfold opposite, r. vec; field; fold r; fold d; lra.
Qed.

(** The force on a Point target: the sum, over the whole collection, of the
    forces due to each source. *)
Lemma netForce_point_sum (target : ChargeObject)
    (allCharges : list ChargeObject) (k : R) :
  type target = POINT ->
  vector (calculateNetForce target allCharges k)
  = vsum (map (pairForce k target) allCharges).
Proof.
  intros Ht.
  assert (vsum (map (pairForce k target) allCharges)
          = Vector3.multiplyScalar
              (vsum (map (fun c => getFieldFromObject (position target) c k)
                         (otherChargesOf target allCharges)))
              (q target)) as E.
  { rewrite <- vsum_map_scale. unfold otherChargesOf.
    rewrite (vsum_filter
               (fun c => Vector3.multiplyScalar
                           (getFieldFromObject (position target) c k)
                           (q target))).
    f_equal. apply map_ext. intros c. unfold pairForce.
    destruct (String.eqb (id c) (id target)); reflexivity. }
  rewrite E. unfold calculateNetForce, calculateNetForceWith. rewrite Ht.
  destruct (otherChargesOf target allCharges) as [|c l] eqn:Ho.
  - simpl. unfold Vector3.zero. vec.
  - cbv beta iota zeta delta [Nat.eqb List.length orb].
    rewrite calculateElectricField_vsum. reflexivity.
Qed.

Lemma point_forces_sum (charges : list ChargeObject) (k : R) :
  (forall c, In c charges -> type c = POINT) ->
  vsum (map (fun c => vector (calculateNetForce c charges k)) charges)
  = Vector3.zero.
Proof.
  intros Hall.
  rewrite (map_ext_in _ (fun c => vsum (map (pairForce k c) charges))).
  - apply vsum_antisymmetric. intros a b Ha Hb.
    apply pairForce_opposite; auto.
  - intros c Hc. apply netForce_point_sum. auto.
Qed.

(** X4. In a collection of Point sources the forces that
    [calculateNetForce] computes add up to the zero vector: the force on
    [a] due to [b] is the opposite of the force on [b] due to [a], for
    every pair, the guard included. *)
Theorem point_forces_cancel (charges : list ChargeObject) (k : R) :
  Forall (fun c => type c = POINT) charges ->
  vsum (map (fun c => vector (calculateNetForce c charges k)) charges)
    = Vector3.zero
  /\ (forall a, In a charges ->
        vector (calculateNetForce a charges k)
        = vsum (map (pairForce k a) charges))
  /\ (forall a b, In a charges -> In b charges ->
        pairForce k a b = opposite (pairForce k b a)).
Proof.
  intros Hall. rewrite Forall_forall in Hall. split; [|split].
  - now apply point_forces_sum.
  - intros a Ha. apply netForce_point_sum. auto.
  - intros a b Ha Hb. apply pairForce_opposite; auto.
Qed.

(** X4 at the pinned and the free unit charge. *)
Lemma point_forces_cancel_witness :
  vsum (map (fun c => vector (calculateNetForce c [pinned; free] 1))
            [pinned; free]) = Vector3.zero.
Proof.
  apply (point_forces_cancel [pinned; free] 1).
  repeat constructor.
Defined.

(** ** Momentum *)

Lemma massOrDefault_sameSource c c' :
  sameSource c c' -> massOrDefault c' = massOrDefault c.
Proof.
  intros (_ & _ & _ & _ & _ & E & _). unfold massOrDefault. now rewrite E.
Qed.

(** The momentum of one source after its integration. *)
Lemma integrate_momentum c F dt damping :
  truthy (isFixed c) = false ->
  let c' := integrate c F dt damping in
  Vector3.multiplyScalar (velocityOrZero c') (massOrDefault c')
  = Vector3.add
      (Vector3.multiplyScalar
         (Vector3.multiplyScalar (velocityOrZero c) (massOrDefault c))
         damping)
      (Vector3.multiplyScalar F (dt * damping)).
Proof.
  intros Hfree c'.
  destruct (integrate_free c F dt damping Hfree) as (Hv & _ & Hs).
  fold c' in Hv, Hs.
  rewrite (massOrDefault_sameSource _ _ Hs).
  unfold velocityOrZero at 1. rewrite Hv.
  destruct (massOrDefault_cases c) as (_ & _ & _ & Hm).
  unfold eulerVelocity. vec; field; assumption.
Qed.

(** X5. In a collection of Point sources, none of them fixed, one call of
    [updateChargeDynamics] multiplies the total momentum (the sum of mass
    times velocity, with the mass the integration uses) by [damping]: the
    forces cancel, so only the damping changes it, and with
    [damping = 1] it is conserved. *)
Theorem momentum_damped (charges : list ChargeObject) (dt k damping : R) :
  Forall (fun c => type c = POINT /\ truthy (isFixed c) = false) charges ->
  momentum (updateChargeDynamics charges dt k damping)
  = Vector3.multiplyScalar (momentum charges) damping.
Proof.
  intros Hall. rewrite Forall_forall in Hall.
  unfold momentum. rewrite updateChargeDynamics_map, map_map.
  rewrite (map_ext_in _
             (fun c =>
                Vector3.add
                  (Vector3.multiplyScalar
                     (Vector3.multiplyScalar (velocityOrZero c)
                        (massOrDefault c)) damping)
                  (Vector3.multiplyScalar
                     (vector (calculateNetForce c charges k))
                     (dt * damping)))).
  - rewrite vsum_map_add, !vsum_map_scale.
    rewrite point_forces_sum by (intros c Hc; now apply Hall).
    replace (Vector3.multiplyScalar Vector3.zero (dt * damping))
      with Vector3.zero by (unfold Vector3.zero; vec).
    apply add_zero_r.
  - intros c Hc. destruct (Hall c Hc) as [_ Hfree].
    rewrite integrate_momentum by assumption.
    unfold forceOn. now rewrite Hfree.
Qed.

(** X5 at two free point charges of masses [2] and [1] (absent). *)
Lemma momentum_damped_witness :
  let a := mkCharge "a" POINT (Vector3.mk 0 0 0) 1 0.2 None (Some 2)
             (Some (Vector3.mk 0 1 0)) None in
  momentum (updateChargeDynamics [a; free] 1 1 0.98)
  = Vector3.multiplyScalar (momentum [a; free]) 0.98.
Proof.
  intros a. apply (momentum_damped [a; free] 1 1 0.98).
  repeat constructor.
Defined.

(** ** Mirror symmetry of two bodies *)

Lemma pairForce_self k a : pairForce k a a = Vector3.zero.
Proof. unfold pairForce. now rewrite String.eqb_refl. Qed.

Lemma forceOn_pair_first k a b :
  type a = POINT -> truthy (isFixed a) = false ->
  forceOn [a; b] k a = pairForce k a b.
Proof.
  intros Ht Hf. unfold forceOn. rewrite Hf.
  rewrite netForce_point_sum by assumption. simpl.
  rewrite pairForce_self, add_zero_l. apply add_zero_r.
Qed.

Lemma forceOn_pair_second k a b :
  type b = POINT -> truthy (isFixed b) = false ->
  forceOn [a; b] k b = pairForce k b a.
Proof.
  intros Ht Hf. unfold forceOn. rewrite Hf.
  rewrite netForce_point_sum by assumption. simpl.
  rewrite pairForce_self, add_zero_l. apply add_zero_r.
Qed.

Lemma sameSource_integrate c F dt damping :
  sameSource c (integrate c F dt damping).
Proof.
  unfold integrate. destruct (truthy (isFixed c)).
  - apply sameSource_refl.
  - unfold sameSource. repeat split.
Qed.

(** One call keeps two mirrored sources mirrored. *)
Lemma mirrored_step a b dt k damping :
  mirrored a b ->
  exists a' b',
    updateChargeDynamics [a; b] dt k damping = [a'; b']
    /\ mirrored a' b' /\ sameSource a a' /\ sameSource b b'.
Proof.
  intros (Hta & Htb & Hfa & Hfb & Hid & Hm & Hp & Hv).
  set (F := pairForce k a b).
  exists (integrate a F dt damping), (integrate b (opposite F) dt damping).
  assert (sameSource a (integrate a F dt damping)) as Sa
      by apply sameSource_integrate.
  assert (sameSource b (integrate b (opposite F) dt damping)) as Sb
      by apply sameSource_integrate.
  split; [|split; [|split]]; try assumption.
  - rewrite updateChargeDynamics_map. simpl.
    rewrite forceOn_pair_first, forceOn_pair_second by assumption.
    rewrite (pairForce_opposite k b a) by assumption. reflexivity.
  - destruct (integrate_free a F dt damping Hfa) as (Hva & Hpa & _).
    destruct (integrate_free b (opposite F) dt damping Hfb)
      as (Hvb & Hpb & _).
    pose proof Sa as (Ia & Ta & _ & _ & _ & _ & Fa).
    pose proof Sb as (Ib & Tb & _ & _ & _ & _ & Fb).
    unfold mirrored. repeat split.
    + congruence.
    + congruence.
    + now rewrite Fa.
    + now rewrite Fb.
    + congruence.
    + rewrite (massOrDefault_sameSource _ _ Sa),
        (massOrDefault_sameSource _ _ Sb). exact Hm.
    + rewrite Hpa, Hpb, Hp, Hv, <- Hm.
      unfold eulerPosition, eulerVelocity, opposite. vec.
    + unfold velocityOrZero at 1 2. rewrite Hva, Hvb, Hv, <- Hm.
      unfold eulerVelocity, opposite. vec.
Qed.

(** X6. Two Point sources that are free to move, of the same mass, with
    opposite positions and opposite velocities (at rest, for instance),
    stay so through any sequence of calls of [updateChargeDynamics]:
    the collection stays two sources, mirror images of each other about
    the origin, whatever their charges and the [dt], [k] and [damping] of
    each call. *)
Theorem mirror_symmetry (params : list (R * R * R)) :
  forall a b : ChargeObject,
  mirrored a b ->
  exists a' b',
    runSteps params [a; b] = [a'; b']
    /\ mirrored a' b'
    /\ position b' = opposite (position a')
    /\ velocityOrZero b' = opposite (velocityOrZero a')
    /\ sameSource a a' /\ sameSource b b'.
Proof.
  induction params as [|[[dt k] damping] params IH]; intros a b Hm.
  - exists a, b. simpl. repeat split; try apply Hm; apply sameSource_refl.
  - destruct (mirrored_step a b dt k damping Hm)
      as (a1 & b1 & Hstep & Hm1 & Sa & Sb).
    destruct (IH a1 b1 Hm1) as (a' & b' & Hrun & Hm' & Hp & Hv & Sa' & Sb').
    exists a', b'. simpl. rewrite Hstep.
    repeat split; try assumption; try apply Hm';
      eapply sameSource_trans; eassumption.
Qed.

(** X6 at the two sources of the initial scene, over three calls. *)
Lemma mirror_symmetry_witness :
  exists a' b',
    runSteps [(0.1, 10, 0.98); (0.016, 10, 0.98); (0.1, 10, 0.98)] [c1; c2]
      = [a'; b']
    /\ position b' = opposite (position a')
    /\ velocityOrZero b' = opposite (velocityOrZero a').
Proof.
  assert (mirrored c1 c2) as H.
  { unfold mirrored, c1, c2, opposite, velocityOrZero; simpl.
    repeat split; try discriminate; unfold Vector3.zero; vec. }
  destruct (mirror_symmetry
              [(0.1, 10, 0.98); (0.016, 10, 0.98); (0.1, 10, 0.98)] c1 c2 H)
    as (a' & b' & Hr & _ & Hp & Hv & _).
  exists a', b'. repeat split; assumption.
Defined.

(** ** The constant [k] and the charge *)

Lemma ringFieldStep_k pos c k s e i :
  ringFieldStep pos c (s * k) 40
    (Vector3.multiplyScalar e s) i
  = Vector3.multiplyScalar (ringFieldStep pos c k 40 e i) s.
Proof.
  unfold ringFieldStep. destruct (Rgt_dec _ 0.1); [|reflexivity].
  vec; unfold Rdiv; ring.
Qed.

Lemma ringField_k pos c k s (l : list nat) : forall e,
  fold_left (ringFieldStep pos c (s * k) 40) l (Vector3.multiplyScalar e s)
  = Vector3.multiplyScalar (fold_left (ringFieldStep pos c k 40) l e) s.
Proof.
  induction l as [|i l IH]; intros e; simpl; [reflexivity|].
  now rewrite ringFieldStep_k, IH.
Qed.

Lemma getFieldFromObject_k pos c k s :
  getFieldFromObject pos c (s * k)
  = Vector3.multiplyScalar (getFieldFromObject pos c k) s.
Proof.
  unfold getFieldFromObject.
  destruct (Rlt_dec _ 0.05); [unfold Vector3.zero; vec|].
  destruct (type c).
  - unfold radial. vec; unfold Rdiv; ring.
  - rewrite <- ringField_k. f_equal. unfold Vector3.zero. vec.
  - destruct (Rge_dec _ _); unfold radial, Vector3.zero;
      vec; unfold Rdiv; ring.
  - destruct (Rge_dec _ _); unfold radial; vec; unfold Rdiv; ring.
Qed.

Lemma ringPotential_k pos c k s (l : list nat) : forall p,
  fold_left (ringPotentialStep pos c (s * k) 30) l (s * p)
  = s * fold_left (ringPotentialStep pos c k 30) l p.
Proof.
  induction l as [|i l IH]; intros p; simpl; [reflexivity|].
  rewrite <- IH. f_equal. unfold ringPotentialStep.
  destruct (Rgt_dec _ 0.05); [unfold Rdiv; ring | reflexivity].
Qed.

Lemma potentialStep_k pos k s p c :
  potentialStep pos (s * k) (s * p) c = s * potentialStep pos k p c.
Proof.
  unfold potentialStep.
  destruct (Rlt_dec _ 0.05); [reflexivity|].
  destruct (type c).
  - unfold Rdiv; ring.
  - apply ringPotential_k.
  - destruct (Rge_dec _ _); unfold Rdiv; ring.
  - destruct (Rge_dec _ _); unfold Rdiv; ring.
Qed.

Lemma calculatePotential_k pos charges k s :
  calculatePotential pos charges (s * k)
  = s * calculatePotential pos charges k.
Proof.
  unfold calculatePotential.
  replace 0 with (s * 0) at 1 by ring. generalize 0.
  induction charges as [|c l IH]; intros p; simpl; [reflexivity|].
  now rewrite potentialStep_k, IH.
Qed.

Lemma calculateElectricField_k pos charges k s :
  vector (calculateElectricField pos charges (s * k))
  = Vector3.multiplyScalar (vector (calculateElectricField pos charges k)) s.
Proof.
  rewrite !calculateElectricField_vsum, <- vsum_map_scale.
  f_equal. apply map_ext. intros c. apply getFieldFromObject_k.
Qed.

Lemma ringForce_k target others k s (l : list nat) : forall e,
  fold_left (ringForceStepWith calculateElectricField target others
               (s * k) 20) l (Vector3.multiplyScalar e s)
  = Vector3.multiplyScalar
      (fold_left (ringForceStepWith calculateElectricField target others
                    k 20) l e) s.
Proof.
  induction l as [|i l IH]; intros e; simpl; [reflexivity|].
  rewrite <- IH. f_equal. unfold ringForceStepWith.
  rewrite calculateElectricField_k. vec.
Qed.

Lemma calculateElectricField_magnitude pos charges k :
  magnitude (calculateElectricField pos charges k)
  = Vector3.length (vector (calculateElectricField pos charges k)).
Proof. reflexivity. Qed.

Lemma calculateNetForce_magnitude target charges k :
  magnitude (calculateNetForce target charges k)
  = Vector3.length (vector (calculateNetForce target charges k)).
Proof.
  unfold calculateNetForce, calculateNetForceWith.
  destruct (Nat.eqb _ 0); [|reflexivity].
  simpl. now rewrite length_zero.
Qed.

Lemma calculateNetForce_k target charges k s :
  vector (calculateNetForce target charges (s * k))
  = Vector3.multiplyScalar (vector (calculateNetForce target charges k)) s.
Proof.
  unfold calculateNetForce, calculateNetForceWith.
  destruct (Nat.eqb _ 0); [simpl; unfold Vector3.zero; vec|].
  cbn [vector].
  destruct (type target); cbv beta iota zeta delta [orb includesSPHERE].
  - rewrite calculateElectricField_k. vec.
  - rewrite <- ringForce_k. f_equal. unfold Vector3.zero. vec.
  - rewrite calculateElectricField_k. vec.
  - rewrite calculateElectricField_k. vec.
Qed.

(** X7. Field, potential and force are proportional to the constant [k]:
    with [s * k] in place of [k], the field of each source, the vector of
    the total field, the total potential and the vector of the net force
    on each target are [s] times what they were, and the magnitudes
    returned with the total field and with the net force are [|s|] times
    what they were (so unchanged when [k] changes sign), for every
    geometry, the guards included (they do not look at [k]). *)
Theorem scaling_in_k (pos : Vector3) (charges : list ChargeObject)
    (k s : R) :
  (forall c,
      getFieldFromObject pos c (s * k)
      = Vector3.multiplyScalar (getFieldFromObject pos c k) s)
  /\ calculateElectricField pos charges (s * k)
     = mkResult
         (Vector3.multiplyScalar
            (vector (calculateElectricField pos charges k)) s)
         (Rabs s * magnitude (calculateElectricField pos charges k))
  /\ calculatePotential pos charges (s * k)
     = s * calculatePotential pos charges k
  /\ (forall target,
      calculateNetForce target charges (s * k)
      = mkResult
          (Vector3.multiplyScalar
             (vector (calculateNetForce target charges k)) s)
          (Rabs s * magnitude (calculateNetForce target charges k))).
Proof.
  assert (forall r v m, vector r = v -> magnitude r = m -> r = mkResult v m)
    as Hrec by (intros [v' m'] v m; simpl; intros -> ->; reflexivity).
  split; [|split; [|split]].
  - intros c. apply getFieldFromObject_k.
  - apply Hrec; [apply calculateElectricField_k|].
    rewrite !calculateElectricField_magnitude, calculateElectricField_k.
    apply length_multiplyScalar.
  - apply calculatePotential_k.
  - intros target. apply Hrec; [apply calculateNetForce_k|].
    rewrite !calculateNetForce_magnitude, calculateNetForce_k.
    apply length_multiplyScalar.
Qed.

Lemma getFieldFromObject_scaleCharge pos c k s :
  getFieldFromObject pos (scaleCharge c s) k
  = getFieldFromObject pos c (s * k).
Proof.
  unfold getFieldFromObject; cbn [position type radius q scaleCharge translate].
  destruct (Rlt_dec _ 0.05); [reflexivity|].
  destruct (type c).
  - f_equal. unfold Rdiv; ring.
  - apply fold_left_ext_all. intros e i. unfold ringFieldStep; simpl.
    destruct (Rgt_dec _ 0.1); [|reflexivity].
    f_equal. f_equal. unfold Rdiv; ring.
  - destruct (Rge_dec _ _); [|reflexivity]. f_equal. unfold Rdiv; ring.
  - destruct (Rge_dec _ _); f_equal; unfold Rdiv; ring.
Qed.

Lemma potentialStep_scaleCharge pos c k s p :
  potentialStep pos k p (scaleCharge c s) = potentialStep pos (s * k) p c.
Proof.
  unfold potentialStep; cbn [position type radius q scaleCharge translate].
  destruct (Rlt_dec _ 0.05); [reflexivity|].
  destruct (type c).
  - unfold Rdiv; ring.
  - apply fold_left_ext_all. intros e i. unfold ringPotentialStep; simpl.
    destruct (Rgt_dec _ 0.05); [|reflexivity]. unfold Rdiv; ring.
  - destruct (Rge_dec _ _); unfold Rdiv; ring.
  - destruct (Rge_dec _ _); unfold Rdiv; ring.
Qed.

(** X8. Field and potential are proportional to the charge of the source:
    with the charge multiplied by [s], the field and the potential of the
    source are [s] times what they were, for every geometry; a source of
    the opposite charge has the opposite field and potential, a source of
    charge [0] has none. *)
Theorem scaling_in_charge (pos : Vector3) (c : ChargeObject) (k s : R) :
  getFieldFromObject pos (scaleCharge c s) k
    = Vector3.multiplyScalar (getFieldFromObject pos c k) s
  /\ calculatePotential pos [scaleCharge c s] k
    = s * calculatePotential pos [c] k
  /\ getFieldFromObject pos (scaleCharge c (-1)) k
    = opposite (getFieldFromObject pos c k)
  /\ (q c = 0 ->
      getFieldFromObject pos c k = Vector3.zero
      /\ calculatePotential pos [c] k = 0).
Proof.
  assert (forall s',
             getFieldFromObject pos (scaleCharge c s') k
             = Vector3.multiplyScalar (getFieldFromObject pos c k) s') as Hf.
  { intros s'. rewrite getFieldFromObject_scaleCharge.
    apply getFieldFromObject_k. }
  assert (forall s',
             calculatePotential pos [scaleCharge c s'] k
             = s' * calculatePotential pos [c] k) as Hp.
  { intros s'. rewrite <- calculatePotential_k.
    rewrite !calculatePotential_single. apply potentialStep_scaleCharge. }
  split; [apply Hf | split; [apply Hp | split; [apply Hf|]]].
  intros Hq.
  assert (scaleCharge c 0 = c) as E.
  { unfold scaleCharge. destruct c; simpl in *. subst. f_equal. ring. }
  split.
  - rewrite <- E, Hf. apply multiplyScalar_0.
  - rewrite <- E, Hp. ring.
Qed.

(** X8 at the sphere of charge [5], probed at [(2, 0, 0)]: no charge, no
    field. *)
Lemma scaling_in_charge_witness :
  getFieldFromObject (Vector3.mk 2 0 0)
    (scaleCharge (unitSphere SPHERE_CONDUCTING) 0) 1 = Vector3.zero.
Proof.
  apply (scaling_in_charge (Vector3.mk 2 0 0)
           (scaleCharge (unitSphere SPHERE_CONDUCTING) 0) 1 0).
  simpl. ring.
Defined.

(** ** Moving the scene *)

Lemma subVectors_translate (a b t : Vector3) :
  Vector3.subVectors (Vector3.add a t) (Vector3.add b t)
  = Vector3.subVectors a b.
Proof. vec. Qed.

Lemma sample_translate (pos p t : Vector3) (rad : R) (n i : nat) :
  Vector3.subVectors (Vector3.add pos t)
    (ringSamplePos (Vector3.add p t) rad n i)
  = Vector3.subVectors pos (ringSamplePos p rad n i).
Proof. unfold ringSamplePos. vec. Qed.

(** X9. Moving the probe and the sources by the same vector changes
    neither the field nor the potential: both depend on the positions only
    through the vector from the source to the probe, for every geometry,
    ring samples included. *)
Theorem translation_invariance (pos t : Vector3)
    (charges : list ChargeObject) (k : R) :
  (forall c,
      getFieldFromObject (Vector3.add pos t) (translate c t) k
      = getFieldFromObject pos c k)
  /\ calculateElectricField (Vector3.add pos t)
       (map (fun c => translate c t) charges) k
     = calculateElectricField pos charges k
  /\ calculatePotential (Vector3.add pos t)
       (map (fun c => translate c t) charges) k
     = calculatePotential pos charges k.
Proof.
  assert (forall c,
             getFieldFromObject (Vector3.add pos t) (translate c t) k
             = getFieldFromObject pos c k) as Hf.
  { intros c. unfold getFieldFromObject; cbn [position type radius q scaleCharge translate].
    rewrite subVectors_translate.
    destruct (Rlt_dec _ 0.05); [reflexivity|].
    destruct (type c); try reflexivity.
    apply fold_left_ext_all. intros e i. unfold ringFieldStep; simpl.
    now rewrite sample_translate. }
  assert (forall p c,
             potentialStep (Vector3.add pos t) k p (translate c t)
             = potentialStep pos k p c) as Hp.
  { intros p c. unfold potentialStep. rewrite !distanceTo_length; cbn [position type radius q scaleCharge translate].
    rewrite subVectors_translate.
    destruct (Rlt_dec _ 0.05); [reflexivity|].
    destruct (type c); try reflexivity.
    apply fold_left_ext_all. intros e i. unfold ringPotentialStep; simpl.
    now rewrite !distanceTo_length, sample_translate. }
  split; [exact Hf | split].
  - unfold calculateElectricField.
    assert (forall e,
               fold_left (fun totalE charge =>
                            Vector3.add totalE
                              (getFieldFromObject (Vector3.add pos t)
                                 charge k))
                         (map (fun c => translate c t) charges) e
               = fold_left (fun totalE charge =>
                              Vector3.add totalE
                                (getFieldFromObject pos charge k))
                           charges e) as E.
    { induction charges as [|c l IH]; intros e; simpl; [reflexivity|].
      now rewrite Hf, IH. }
    now rewrite E.
  - unfold calculatePotential. generalize 0.
    induction charges as [|c l IH]; intros p; simpl; [reflexivity|].
    now rewrite Hp, IH.
Qed.

(** ** The potential of a ring on its axis *)

Lemma fold_left_constant_add {A} (a : R) (l : list A) : forall p,
  fold_left (fun p _ => p + a) l p = p + INR (List.length l) * a.
Proof.
  induction l as [|x l IH]; intros p.
  - simpl. ring.
  - cbn [fold_left List.length]. rewrite IH, S_INR. ring.
Qed.

(** X10. A RING source, probed on its axis at height [h] with
    [|h| >= 0.05] and the samples beyond their guard
    ([sqrt (R^2 + h^2) > 0.05]): the potential computed with the 30
    samples is [k * q / sqrt (R^2 + h^2)], the exact potential of a ring on
    its axis. *)
Theorem ring_potential_on_axis (c : ChargeObject) (k h : R) :
  type c = RING ->
  0.05 <= Rabs h ->
  sqrt (radius c * radius c + h * h) > 0.05 ->
  calculatePotential (onAxis c h) [c] k
  = k * q c / sqrt (radius c * radius c + h * h).
Proof.
  intros Ht Hh Hfar. rewrite calculatePotential_single.
  unfold potentialStep.
  rewrite distanceTo_length, onAxis_center_distance, Ht.
  destruct (Rlt_dec (Rabs h) 0.05); [lra|].
  set (D := sqrt (radius c * radius c + h * h)) in *.
  rewrite (fold_left_ext_all _ (fun p _ => p + k * (q c / INR 30) / D)).
  - rewrite fold_left_constant_add, length_seq.
    replace (INR 30) with 30 by (rewrite INR_IZR_INZ; reflexivity).
    field. lra.
  - intros p i. unfold ringPotentialStep.
    rewrite distanceTo_length, onAxis_sample_distance. fold D.
    destruct (Rgt_dec D 0.05); [reflexivity | contradiction].
Qed.

(** X10 at the ring of radius [0.75] probed at height [1]. *)
Lemma ring_potential_on_axis_witness :
  calculatePotential (Vector3.mk 0 1 0) [ring075] 1 = 0.8.
Proof.
  assert (0.05 <= Rabs 1) as H1 by (rewrite Rabs_R1; lra).
  assert (sqrt (radius ring075 * radius ring075 + 1 * 1) > 0.05) as H2
      by (simpl; rewrite sqrt_25_16; lra).
  replace (Vector3.mk 0 1 0) with (onAxis ring075 1)
    by (unfold onAxis; vec).
  rewrite (ring_potential_on_axis ring075 1 1 eq_refl H1 H2).
  simpl. rewrite sqrt_25_16. lra.
Defined.

(** ** Grid snapping, continued *)

Lemma Math_round_integer (n : Z) : Math_round (IZR n) = IZR n.
Proof. apply Math_round_unique. lra. Qed.

Lemma Math_round_half (n : Z) : Math_round (IZR n + / 2) = IZR n + 1.
Proof.
  rewrite <- plus_IZR. apply Math_round_unique. rewrite plus_IZR. lra.
Qed.

Lemma Math_round_monotone (a b : R) :
  a <= b -> Math_round a <= Math_round b.
Proof.
  intros H.
  pose proof (Math_round_bounds a) as [Ha1 Ha2].
  pose proof (Math_round_bounds b) as [Hb1 Hb2].
  unfold Math_round in *.
  set (m := Int_part (a + / 2)) in *. set (n := Int_part (b + / 2)) in *.
  assert (IZR m < IZR n + 1) as Hlt by lra.
  rewrite <- plus_IZR in Hlt. apply lt_IZR in Hlt.
  apply IZR_le. lia.
Qed.

(** X11. For [step > 0], [snapToGrid] is idempotent and leaves the points
    of the grid where they are: snapping a snapped point changes nothing,
    and a point whose coordinates are integer multiples of [step] is
    returned as it is. *)
Theorem snapToGrid_idempotent (pos : Vector3) (step : R) :
  0 < step ->
  snapToGrid (snapToGrid pos step) step = snapToGrid pos step
  /\ (forall i j l : Z,
        snapToGrid (Vector3.mk (IZR i * step) (IZR j * step) (IZR l * step))
                   step
        = Vector3.mk (IZR i * step) (IZR j * step) (IZR l * step)).
Proof.
  intros Hs.
  assert (forall n : Z, Math_round (IZR n * step / step) = IZR n) as H.
  { intros n. replace (IZR n * step / step) with (IZR n) by (field; lra).
    apply Math_round_integer. }
  assert (forall t, Math_round (Math_round t * step / step) = Math_round t)
    as H'.
  { intros t. change (Math_round t) with (IZR (Int_part (t + / 2))).
    apply H. }
  split.
  - unfold snapToGrid; simpl. now rewrite !H'.
  - intros i j l. unfold snapToGrid; simpl. now rewrite !H.
Qed.

(** X11 at [(0.7, -0.2, 3)] with step [0.5]. *)
Lemma snapToGrid_idempotent_witness :
  snapToGrid (snapToGrid (Vector3.mk 0.7 (-0.2) 3) 0.5) 0.5
  = snapToGrid (Vector3.mk 0.7 (-0.2) 3) 0.5.
Proof.
  apply (snapToGrid_idempotent (Vector3.mk 0.7 (-0.2) 3) 0.5). lra.
Defined.

(** X12. For [step > 0], [snapToGrid] keeps the order of the points along
    each axis, and a coordinate half way between two grid lines goes to the
    upper one ([Math.round] rounds a tie up, for negative numbers too). *)
Theorem snapToGrid_monotone (step : R) :
  0 < step ->
  (forall p p',
      (Vector3.x p <= Vector3.x p' ->
       Vector3.x (snapToGrid p step) <= Vector3.x (snapToGrid p' step))
      /\ (Vector3.y p <= Vector3.y p' ->
       Vector3.y (snapToGrid p step) <= Vector3.y (snapToGrid p' step))
      /\ (Vector3.z p <= Vector3.z p' ->
       Vector3.z (snapToGrid p step) <= Vector3.z (snapToGrid p' step)))
  /\ (forall (n : Z) (b c : R),
      Vector3.x (snapToGrid (Vector3.mk ((IZR n + / 2) * step) b c) step)
      = (IZR n + 1) * step).
Proof.
  intros Hs.
  assert (forall a b, a <= b ->
            Math_round (a / step) * step <= Math_round (b / step) * step)
    as Hmono.
  { intros a b Hab. apply Rmult_le_compat_r; [lra|].
    apply Math_round_monotone.
    unfold Rdiv. apply Rmult_le_compat_r; [|exact Hab].
    apply Rlt_le, Rinv_0_lt_compat, Hs. }
  split.
  - intros p p'. repeat split; apply Hmono.
  - intros n b c. unfold snapToGrid; simpl.
    replace ((IZR n + / 2) * step / step) with (IZR n + / 2)
      by (field; lra).
    now rewrite Math_round_half.
Qed.

(** X12 at step [0.5]: [-0.75], half way between [-1] and [-0.5], goes to
    [-0.5]. *)
Lemma snapToGrid_monotone_witness :
  Vector3.x (snapToGrid (Vector3.mk (-0.75) 0 0) 0.5) = -0.5.
Proof.
  assert (0 < 0.5) as Hs by lra.
  destruct (snapToGrid_monotone 0.5 Hs) as [_ H].
  replace (-0.75) with ((IZR (-2) + / 2) * 0.5) by lra.
  rewrite H. lra.
Defined.

(** ** Bounds: no singularity *)

Lemma cauchy_schwarz (a1 a2 a3 b1 b2 b3 : R) :
  a1 * b1 + a2 * b2 + a3 * b3
  <= sqrt (a1 * a1 + a2 * a2 + a3 * a3) * sqrt (b1 * b1 + b2 * b2 + b3 * b3).
Proof.
  rewrite <- sqrt_mult by apply sumsq_nonneg.
  eapply Rle_trans; [apply Rle_abs|].
  rewrite <- sqrt_Rsqr_abs. apply sqrt_le_1_alt. unfold Rsqr.
  assert (0 <= (a1 * b2 - a2 * b1) * (a1 * b2 - a2 * b1)
               + (a1 * b3 - a3 * b1) * (a1 * b3 - a3 * b1)
               + (a2 * b3 - a3 * b2) * (a2 * b3 - a3 * b2)) as H
      by apply sumsq_nonneg.
  lra.
Qed.

(** The triangle inequality. *)
Lemma length_add_le (a b : Vector3) :
  Vector3.length (Vector3.add a b) <= Vector3.length a + Vector3.length b.
Proof.
  apply Rsqr_incr_0_var.
  - unfold Vector3.length, Vector3.add; simpl.
    pose proof (cauchy_schwarz (Vector3.x a) (Vector3.y a) (Vector3.z a)
                  (Vector3.x b) (Vector3.y b) (Vector3.z b)) as CS.
    rewrite Rsqr_sqrt by apply sumsq_nonneg.
    rewrite Rsqr_plus, !Rsqr_sqrt by apply sumsq_nonneg.
    lra.
  - pose proof (length_nonneg a). pose proof (length_nonneg b). lra.
Qed.

Lemma length_radial_abs (rVec : Vector3) (m : R) :
  Vector3.length rVec <> 0 -> Vector3.length (radial rVec m) = Rabs m.
Proof.
  intros H. unfold radial.
  rewrite length_multiplyScalar, length_normalize by assumption. ring.
Qed.

Lemma Rabs_scaled_le (a t M : R) :
  0 <= t <= M -> Rabs (a * t) <= M * Rabs a.
Proof.
  intros [H0 HM]. rewrite Rabs_mult, (Rabs_pos_eq t) by assumption.
  pose proof (Rabs_pos a). nra.
Qed.

Lemma inv_square_bound (d lo : R) :
  0 < lo -> lo <= d -> 0 <= / (d * d) <= / (lo * lo).
Proof.
  intros Hlo Hd. split.
  - apply Rlt_le, Rinv_0_lt_compat. nra.
  - apply Rinv_le_contravar; nra.
Qed.

Lemma inv_bound (d lo : R) : 0 < lo -> lo <= d -> 0 <= / d <= / lo.
Proof.
  intros Hlo Hd. split.
  - apply Rlt_le, Rinv_0_lt_compat. lra.
  - apply Rinv_le_contravar; lra.
Qed.

(** The loop of a ring adds at most [B] per sample. *)
Lemma ring_loop_bound pos c k (B : R) :
  (forall e i,
      Vector3.length (ringFieldStep pos c k 40 e i)
      <= Vector3.length e + B) ->
  forall (l : list nat) e,
    Vector3.length (fold_left (ringFieldStep pos c k 40) l e)
    <= Vector3.length e + INR (List.length l) * B.
Proof.
  intros H l. induction l as [|i l IH]; intros e.
  - simpl. lra.
  - cbn [fold_left List.length]. rewrite S_INR.
    eapply Rle_trans; [apply IH|]. specialize (H e i). lra.
Qed.

Lemma ringFieldStep_bound pos c k e i :
  Vector3.length (ringFieldStep pos c k 40 e i)
  <= Vector3.length e + 2.5 * Rabs (k * q c).
Proof.
  pose proof (Rabs_pos (k * q c)) as Hpos.
  unfold ringFieldStep.
  set (rS := Vector3.subVectors pos
               (ringSamplePos (position c) (radius c) 40 i)).
  set (dR := Vector3.length rS).
  destruct (Rgt_dec dR 0.1) as [H|H]; [|lra].
  eapply Rle_trans; [apply length_add_le|].
  apply Rplus_le_compat_l.
  fold (radial rS (k * (q c / INR 40) / (dR * dR))).
  rewrite length_radial_abs by (fold dR; lra).
  rewrite INR_40.
  replace (k * (q c / 40) / (dR * dR))
    with (k * q c * (/ (dR * dR) * / 40)) by (field; lra).
  apply Rabs_scaled_le.
  destruct (inv_square_bound dR 0.1) as [H0 H1]; lra.
Qed.

(** X13. The guards keep the field of a source bounded: at every probe
    point, for every geometry and every radius, the length of the field of
    a source is at most [400 * |k * q|] (the Point law at the guard
    distance [0.05]); the magnitude returned by [calculateElectricField]
    is at most the sum of these bounds over the collection. *)
Theorem field_bounded (pos : Vector3) (k : R) :
  (forall c,
      Vector3.length (getFieldFromObject pos c k) <= 400 * Rabs (k * q c))
  /\ (forall charges,
      magnitude (calculateElectricField pos charges k)
      <= rsum (map (fun c => 400 * Rabs (k * q c)) charges)).
Proof.
  assert (forall c,
             Vector3.length (getFieldFromObject pos c k)
             <= 400 * Rabs (k * q c)) as Hone.
  { intros c. pose proof (Rabs_pos (k * q c)) as Hpos.
    unfold getFieldFromObject.
    set (rVec := Vector3.subVectors pos (position c)).
    set (d := Vector3.length rVec).
    assert (Houter : 0.05 <= d ->
              Vector3.length (radial rVec (k * q c / (d * d)))
              <= 400 * Rabs (k * q c)).
    { intros Hd. rewrite length_radial_abs by (fold d; lra).
      unfold Rdiv. apply Rabs_scaled_le.
      destruct (inv_square_bound d 0.05) as [H0 H1]; lra. }
    destruct (Rlt_dec d 0.05) as [Hd|Hd]; [rewrite length_zero; lra|].
    destruct (type c).
    - apply Houter. lra.
    - eapply Rle_trans.
      + apply (ring_loop_bound pos c k (2.5 * Rabs (k * q c))).
        intros e i. apply ringFieldStep_bound.
      + rewrite length_zero, length_seq, INR_40. lra.
    - destruct (Rge_dec d (radius c)); [apply Houter; lra|].
      rewrite length_zero. lra.
    - destruct (Rge_dec d (radius c)) as [HR|HR]; [apply Houter; lra|].
      rewrite length_radial_abs by (fold d; lra).
      set (R := radius c) in *.
      replace (k * q c * d / (R * R * R))
        with (k * q c * (d * / (R * R * R))) by (field; lra).
      apply Rabs_scaled_le.
      assert (0 < R * R) by nra.
      assert (0 < R * R * R) by nra.
      assert (0 < / (R * R * R)) by now apply Rinv_0_lt_compat.
      split; [nra|].
      apply Rle_trans with (R * / (R * R * R)); [nra|].
      replace (R * / (R * R * R)) with (/ (R * R)) by (field; lra).
      destruct (inv_square_bound R 0.05) as [_ H3]; lra. }
  split; [exact Hone|].
  intros charges.
  replace (magnitude (calculateElectricField pos charges k))
    with (Vector3.length (vector (calculateElectricField pos charges k)))
    by reflexivity.
  rewrite calculateElectricField_vsum.
  induction charges as [|c l IH]; simpl.
  - rewrite length_zero. lra.
  - eapply Rle_trans; [apply length_add_le|].
    specialize (Hone c). unfold rsum in *. lra.
Qed.

Lemma ring_potential_loop_bound pos c k (l : list nat) : forall p,
  Rabs (fold_left (ringPotentialStep pos c k 30) l p)
  <= Rabs p + INR (List.length l) * (/ 1.5 * Rabs (k * q c)).
Proof.
  pose proof (Rabs_pos (k * q c)) as Hpos.
  induction l as [|i l IH]; intros p.
  - simpl. lra.
  - cbn [fold_left List.length]. rewrite S_INR.
    eapply Rle_trans; [apply IH|].
    assert (Rabs (ringPotentialStep pos c k 30 p i)
            <= Rabs p + / 1.5 * Rabs (k * q c)) as Hstep.
    { unfold ringPotentialStep.
      set (d := Vector3.distanceTo pos _).
      destruct (Rgt_dec d 0.05) as [H|H]; [|lra].
      eapply Rle_trans; [apply Rabs_triang|].
      apply Rplus_le_compat_l.
      replace (INR 30) with 30 by (rewrite INR_IZR_INZ; reflexivity).
      replace (k * (q c / 30) / d) with (k * q c * (/ d * / 30))
        by (field; lra).
      apply Rabs_scaled_le.
      destruct (inv_bound d 0.05) as [H0 H1]; lra. }
    lra.
Qed.

(** X14. The guards keep the potential of a source bounded: at every probe
    point, for every geometry and every radius, the potential of a source
    is at most [30 * |k * q|] in absolute value ([20 * |k * q|] is the
    Point law at the guard distance; the interior of a uniformly charged
    sphere reaches up to one and a half times its surface value). *)
Theorem potential_bounded (pos : Vector3) (c : ChargeObject) (k : R) :
  Rabs (calculatePotential pos [c] k) <= 30 * Rabs (k * q c).
Proof.
  pose proof (Rabs_pos (k * q c)) as Hpos.
  rewrite calculatePotential_single. unfold potentialStep.
  set (d := Vector3.distanceTo pos (position c)).
  assert (Houter : 0.05 <= d ->
            Rabs (0 + k * q c / d) <= 30 * Rabs (k * q c)).
  { intros Hd. rewrite Rplus_0_l. unfold Rdiv.
    eapply Rle_trans; [apply (Rabs_scaled_le _ _ 20)|lra].
    destruct (inv_bound d 0.05) as [H0 H1]; lra. }
  destruct (Rlt_dec d 0.05) as [Hd|Hd]; [rewrite Rabs_R0; lra|].
  destruct (type c).
  - apply Houter. lra.
  - eapply Rle_trans; [apply ring_potential_loop_bound|].
    rewrite Rabs_R0, length_seq.
    replace (INR 30) with 30 by (rewrite INR_IZR_INZ; reflexivity). lra.
  - destruct (Rge_dec d (radius c)) as [HR|HR]; [apply Houter; lra|].
    rewrite Rplus_0_l. unfold Rdiv.
    eapply Rle_trans; [apply (Rabs_scaled_le _ _ 20)|lra].
    destruct (inv_bound (radius c) 0.05) as [H0 H1]; lra.
  - destruct (Rge_dec d (radius c)) as [HR|HR]; [apply Houter; lra|].
    rewrite Rplus_0_l.
    set (R := radius c) in *.
    assert (0 < R) as HRpos by lra.
    assert (0 <= d) as Hd0 by lra.
    replace (k * q c / (2 * R) * (3 - d * d / (R * R)))
      with (k * q c * ((3 - d * d / (R * R)) * / (2 * R)))
      by (field; lra).
    apply Rabs_scaled_le.
    assert (0 <= d * d / (R * R) <= 1) as [Hq0 Hq1].
    { assert (0 < R * R) by nra. split.
      - apply Rmult_le_pos; [nra|]. apply Rlt_le, Rinv_0_lt_compat. lra.
      - apply Rmult_le_reg_r with (R * R); [lra|].
        replace (d * d / (R * R) * (R * R)) with (d * d) by (field; lra).
        nra. }
    destruct (inv_bound (2 * R) 0.1) as [H0 H1]; try lra.
    replace (/ 0.1) with 10 in H1 by lra.
    split; [nra|]. nra.
Qed.

(** ** A point charge inside a conducting sphere *)

(** The force on a target that is not a ring: its charge times the field
    of the others at its centre. *)
Lemma netForce_centre (target : ChargeObject)
    (allCharges : list ChargeObject) (k : R) :
  type target <> RING ->
  otherChargesOf target allCharges <> [] ->
  vector (calculateNetForce target allCharges k)
  = Vector3.multiplyScalar
      (vsum (map (fun c => getFieldFromObject (position target) c k)
                 (otherChargesOf target allCharges)))
      (q target).
Proof.
  intros Ht Ho. unfold calculateNetForce, calculateNetForceWith.
  destruct (otherChargesOf target allCharges) as [|c l]; [contradiction|].
  cbv beta iota zeta delta [Nat.eqb List.length].
  rewrite <- calculateElectricField_vsum.
  destruct (type target); try contradiction; reflexivity.
Qed.

(** X15. A Point source [a] inside a conducting sphere [b]
    ([0.05 <= d < R]), the two alone in the collection: the force on [a]
    is the zero vector (the sphere shields its interior), while the force
    on the sphere, taken at its centre, is the Point law
    [k * qa * qb / d^2] along the unit vector from [a] to [b].  Action and
    reaction are not equal here. *)
Theorem shielded_point_no_reaction (a b : ChargeObject) (k : R) :
  type a = POINT -> type b = SPHERE_CONDUCTING -> id a <> id b ->
  let r := Vector3.subVectors (position b) (position a) in
  let d := Vector3.length r in
  0.05 <= d -> d < radius b ->
  vector (calculateNetForce a [a; b] k) = Vector3.zero
  /\ vector (calculateNetForce b [a; b] k)
     = Vector3.multiplyScalar (unitVector r) (k * q a * q b / (d * d))
  /\ magnitude (calculateNetForce b [a; b] k)
     = Rabs (k * q a * q b) / (d * d).
Proof.
  intros Hta Htb Hid r d Hd HR.
  assert (otherChargesOf a [a; b] = [b]) as Oa.
  { unfold otherChargesOf; simpl. rewrite String.eqb_refl; simpl.
    destruct (String.eqb_spec (id b) (id a)); [congruence | reflexivity]. }
  assert (otherChargesOf b [a; b] = [a]) as Ob.
  { unfold otherChargesOf; simpl. rewrite String.eqb_refl; simpl.
    destruct (String.eqb_spec (id a) (id b)); [congruence | reflexivity]. }
  assert (vector (calculateNetForce b [a; b] k)
          = Vector3.multiplyScalar (unitVector r) (k * q a * q b / (d * d)))
    as Fb.
  { rewrite netForce_centre by (rewrite ?Ob, ?Htb; discriminate).
    rewrite Ob. simpl. rewrite add_zero_r.
    rewrite (point_field (position b) a k Hta) by (fold r; fold d; lra).
    fold r. fold d. vec; unfold Rdiv; ring. }
  split; [|split].
  - rewrite netForce_centre by (rewrite ?Oa, ?Hta; discriminate).
    rewrite Oa. simpl. rewrite add_zero_r.
    destruct (conducting_inside (position a) b k Htb) as [-> _].
    + rewrite length_subVectors_sym. fold r. fold d. lra.
    + rewrite length_subVectors_sym. fold r. fold d. lra.
    + unfold Vector3.zero. vec.
  - exact Fb.
  - replace (magnitude (calculateNetForce b [a; b] k))
      with (Vector3.length (vector (calculateNetForce b [a; b] k))).
    + rewrite Fb, length_multiplyScalar, length_unitVector
        by (fold d; lra).
      unfold Rdiv. rewrite Rabs_mult, (Rabs_pos_eq (/ (d * d))).
      * ring.
      * apply Rlt_le, Rinv_0_lt_compat. nra.
    + unfold calculateNetForce, calculateNetForceWith. rewrite Ob.
      reflexivity.
Qed.

(** X15 at the free unit charge, [0.5] from the centre of a conducting
    sphere of charge [5] and radius [1]. *)
Lemma shielded_point_no_reaction_witness :
  let a := mkCharge "a" POINT (Vector3.mk 0.5 0 0) 1 0.15 None None None
             None in
  let b := unitSphere SPHERE_CONDUCTING in
  vector (calculateNetForce a [a; b] 1) = Vector3.zero
  /\ magnitude (calculateNetForce b [a; b] 1) = 20.
Proof.
  intros a b.
  assert (Vector3.length (Vector3.subVectors (position b) (position a))
          = 0.5) as Hd.
  { rewrite length_subVectors_sym. apply length_on_x_axis. lra. }
  destruct (shielded_point_no_reaction a b 1 eq_refl eq_refl)
    as (H1 & _ & H3).
  - discriminate.
  - rewrite Hd. lra.
  - rewrite Hd. simpl. lra.
  - split; [exact H1|]. rewrite H3, Hd. simpl.
    replace (1 * 1 * 5) with 5 by ring.
    rewrite Rabs_pos_eq by lra. lra.
Defined.

(** ** The potential at the surface of a sphere *)

Lemma sphere_potential_radial pos c k :
  (type c = SPHERE_CONDUCTING ->
   calculatePotential pos [c] k
   = spherePotential true k (q c) (radius c)
       (Vector3.distanceTo pos (position c)))
  /\ (type c = SPHERE_NON_CONDUCTING ->
   calculatePotential pos [c] k
   = spherePotential false k (q c) (radius c)
       (Vector3.distanceTo pos (position c))).
Proof.
  rewrite calculatePotential_single.
  unfold potentialStep, spherePotential.
  split; intros ->; destruct (Rlt_dec _ 0.05); try reflexivity;
    destruct (Rge_dec _ _); apply Rplus_0_l.
Qed.

(** X16. The potential of a sphere of either kind is continuous across its
    surface: as a function of the distance to the centre it is continuous
    at [d = R] (for [R] outside the guard), the interior formulas
    [k * q / R] and [(k * q / (2 * R)) * (3 - d^2 / R^2)] meeting the
    Point law [k * q / d] there. *)
Theorem sphere_potential_continuous (conducting : bool) (k q0 rad : R) :
  0.05 < rad ->
  continuity_pt (spherePotential conducting k q0 rad) rad
  /\ spherePotential conducting k q0 rad rad = k * q0 / rad
  /\ (forall pos c,
        type c = (if conducting then SPHERE_CONDUCTING
                  else SPHERE_NON_CONDUCTING) ->
        calculatePotential pos [c] k
        = spherePotential conducting k (q c) (radius c)
            (Vector3.distanceTo pos (position c))).
Proof.
  intros HR. set (R := rad) in *.
  assert (spherePotential conducting k q0 R R = k * q0 / R) as Hat.
  { unfold spherePotential.
    destruct (Rlt_dec R 0.05); [lra|].
    destruct (Rge_dec R R); [reflexivity | lra]. }
  split; [|split; [exact Hat|]].
  - assert (continuity_pt (fun d => k * q0 / d) R) as C1 by (reg; lra).
    assert (continuity_pt
              (fun d => if conducting then k * q0 / R
                        else k * q0 / (2 * R) * (3 - d * d / (R * R))) R)
      as C2 by (destruct conducting; reg).
    intros eps Heps.
    destruct (C1 eps Heps) as (a1 & Ha1 & H1).
    destruct (C2 eps Heps) as (a2 & Ha2 & H2).
    exists (Rmin (R - 0.05) (Rmin a1 a2)). split.
    + repeat apply Rmin_glb_lt; lra.
    + intros d [HD Hdist].
      assert (Rabs (d - R) < R - 0.05) as B0
          by (eapply Rlt_le_trans; [exact Hdist | apply Rmin_l]).
      assert (Rabs (d - R) < a1) as B1.
      { eapply Rlt_le_trans; [exact Hdist|].
        eapply Rle_trans; [apply Rmin_r | apply Rmin_l]. }
      assert (Rabs (d - R) < a2) as B2.
      { eapply Rlt_le_trans; [exact Hdist|].
        eapply Rle_trans; [apply Rmin_r | apply Rmin_r]. }
      specialize (H1 d (conj HD B1)). specialize (H2 d (conj HD B2)).
      simpl in *. unfold R_dist in *. rewrite Hat.
      unfold spherePotential.
      assert (0.05 < d) as Hd
          by (unfold Rabs in B0; destruct (Rcase_abs (d - R)); lra).
      destruct (Rlt_dec d 0.05); [lra|].
      destruct (Rge_dec d R); [exact H1|].
      replace (k * q0 / R)
        with (if conducting then k * q0 / R
              else k * q0 / (2 * R) * (3 - R * R / (R * R)))
        by (destruct conducting; [reflexivity | field; lra]).
      destruct conducting; exact H2.
  - intros pos c Ht.
    destruct (sphere_potential_radial pos c k) as [Hc Hn].
    destruct conducting; auto.
Qed.

(** X16 at the unit sphere of charge [5]. *)
Lemma sphere_potential_continuous_witness :
  continuity_pt (spherePotential true 1 5 1) 1
  /\ continuity_pt (spherePotential false 1 5 1) 1.
Proof.
  assert (0.05 < 1) as H by lra.
  split.
  - apply (sphere_potential_continuous true 1 5 1 H).
  - apply (sphere_potential_continuous false 1 5 1 H).
Defined.

(** ** The frame loop *)

Lemma runFrames_paused k deltas ref : runFrames false k deltas ref = ref.
Proof. unfold runFrames. induction deltas; simpl; auto. Qed.

Lemma physicsFrame_playing ref delta k :
  fst (physicsFrame true ref delta k)
  = updateChargeDynamics ref (Rmin delta 0.1) k 0.98.
Proof. reflexivity. Qed.

Lemma runFrames_runSteps k deltas : forall ref,
  runFrames true k deltas ref
  = runSteps (map (fun delta => (Rmin delta 0.1, k, 0.98)) deltas) ref.
Proof.
  unfold runFrames. induction deltas as [|d l IH]; intros ref; simpl;
    [reflexivity | apply IH].
Qed.

(** X17. The frame loop of [PhysicsLoop]: while paused a frame leaves the
    collection as it is and reports nothing; while playing it reports the
    collection it stores, which is one call of [updateChargeDynamics] with
    damping [0.98] and a time step that is never more than [0.1], so a
    frame that took longer than [0.1] advances the scene as a frame of
    [0.1] does; any run of frames keeps the number and [id]s of the
    sources, and keeps every fixed source where it is. *)
Theorem physics_loop (chargesRef : list ChargeObject) (k : R) :
  (forall delta, physicsFrame false chargesRef delta k = (chargesRef, None))
  /\ (forall delta,
        snd (physicsFrame true chargesRef delta k)
        = Some (fst (physicsFrame true chargesRef delta k)))
  /\ (forall delta, 0.1 <= delta ->
        physicsFrame true chargesRef delta k
        = physicsFrame true chargesRef 0.1 k)
  /\ (forall delta, delta <= 0.1 ->
        fst (physicsFrame true chargesRef delta k)
        = updateChargeDynamics chargesRef delta k 0.98)
  /\ (forall isPlaying deltas,
        map id (runFrames isPlaying k deltas chargesRef)
        = map id chargesRef)
  /\ (forall isPlaying deltas i c,
        nth_error chargesRef i = Some c -> isFixed c = Some true ->
        nth_error (runFrames isPlaying k deltas chargesRef) i = Some c).
Proof.
  split; [|split; [|split; [|split; [|split]]]].
  - reflexivity.
  - reflexivity.
  - intros delta H. unfold physicsFrame; simpl.
    rewrite (Rmin_right delta 0.1) by lra.
    rewrite (Rmin_left 0.1 0.1) by lra. reflexivity.
  - intros delta H. rewrite physicsFrame_playing.
    now rewrite Rmin_left.
  - intros [|] deltas; [|now rewrite runFrames_paused].
    rewrite runFrames_runSteps.
    generalize (map (fun delta => (Rmin delta 0.1, k, 0.98)) deltas).
    intros params. revert chargesRef.
    induction params as [|[[dt k'] damping] params IH]; intros ref;
      [reflexivity|].
    simpl. rewrite IH. apply updateChargeDynamics_ids.
  - intros [|] deltas i c Hi Hf; [|now rewrite runFrames_paused].
    rewrite runFrames_runSteps. now apply runSteps_fixed.
Qed.

(** X17 at the pinned and the free charge: a frame of half a second is a
    frame of a tenth of a second, and the pinned charge stays. *)
Lemma physics_loop_witness :
  physicsFrame true [pinned; free] 0.5 1
    = physicsFrame true [pinned; free] 0.1 1
  /\ nth_error (runFrames true 1 [0.5; 0.016] [pinned; free]) 0
     = Some pinned.
Proof.
  destruct (physics_loop [pinned; free] 1) as (_ & _ & H3 & _ & _ & H6).
  split.
  - apply H3. lra.
  - apply (H6 true [0.5; 0.016] 0%nat pinned); reflexivity.
Defined.

(** ** The arrows *)

Lemma lengthSq_zero : lengthSq Vector3.zero = 0.
Proof. unfold lengthSq; simpl. ring. Qed.

Lemma arrowLength_zero visible s : arrowLength visible Vector3.zero s = None.
Proof.
  unfold arrowLength. destruct (negb visible); [reflexivity|].
  rewrite lengthSq_zero. destruct (Rlt_dec 0 0.0001); [reflexivity | lra].
Qed.

Lemma ln_one_plus_nonneg (m : R) : 0 <= m -> 0 <= ln (1 + m).
Proof.
  intros [H|<-].
  - rewrite <- ln_1. apply Rlt_le, ln_increasing; lra.
  - rewrite Rplus_0_r, ln_1. lra.
Qed.

(** X18. The arrows of [VectorArrow]: an arrow that is drawn has a length
    between [0.2] and [2 * MAX_VECTOR_LENGTH_VISUAL = 8], its shaft and
    head add up to that length, and its vector is at least [0.01] long;
    no arrow is drawn with a scale factor that is [0] or negative; the
    force arrow of a source alone in the scene, and of a source of charge
    [0], is never drawn. *)
Theorem arrows (visible : bool) (v : Vector3) (s : R) :
  (forall len, arrowLength visible v s = Some len ->
     0.2 <= len <= 8
     /\ cylinderLen len + coneLen len = len
     /\ 0.01 <= Vector3.length v
     /\ visible = true)
  /\ (s <= 0 -> arrowLength visible v s = None)
  /\ (forall showVectors c k,
        forceArrow showVectors c [c] k s = None)
  /\ (forall showVectors c allCharges k,
        q c = 0 -> forceArrow showVectors c allCharges k s = None).
Proof.
  split; [|split; [|split]].
  - intros len. unfold arrowLength.
    destruct visible; [|discriminate]. simpl.
    destruct (Rlt_dec (lengthSq v) 0.0001) as [H|H]; [discriminate|].
    destruct (Rlt_dec _ 0.2) as [H2|H2]; [discriminate|].
    intros E. injection E as <-.
    repeat split.
    + lra.
    + eapply Rle_trans; [apply Rmin_r|].
      unfold MAX_VECTOR_LENGTH_VISUAL. lra.
    + unfold cylinderLen, coneLen. lra.
    + replace 0.01 with (sqrt (0.01 * 0.01)) by (apply sqrt_square; lra).
      apply sqrt_le_1_alt. unfold lengthSq in H. lra.
  - intros Hs. unfold arrowLength.
    destruct (negb visible); [reflexivity|].
    destruct (Rlt_dec (lengthSq v) 0.0001); [reflexivity|].
    destruct (Rlt_dec _ 0.2) as [H2|H2]; [reflexivity|].
    exfalso. apply H2.
    eapply Rle_lt_trans; [apply Rmin_l|].
    pose proof (ln_one_plus_nonneg _ (length_nonneg v)). nra.
  - intros showVectors c k. unfold forceArrow.
    destruct showVectors; [|reflexivity].
    unfold calculateNetForce.
    rewrite calculateNetForceWith_alone by (intros c' [<-|[]]; reflexivity).
    apply arrowLength_zero.
  - intros showVectors c allCharges k Hq. unfold forceArrow.
    destruct showVectors; [|reflexivity].
    rewrite netForce_neutral by assumption.
    apply arrowLength_zero.
Qed.

(** X18 at the first source of the initial scene, alone, and at a unit
    vector with scale factor [0]. *)
Lemma arrows_witness :
  forceArrow true c1 [c1] 10 1 = None
  /\ arrowLength true (Vector3.mk 1 0 0) 0 = None.
Proof.
  split.
  - destruct (arrows true Vector3.zero 1) as (_ & _ & H & _). apply H.
  - destruct (arrows true (Vector3.mk 1 0 0) 0) as (_ & H & _).
    apply H. lra.
Defined.

(** ** A ring and a point charge on its axis *)

Section HalfTurnAny.
Variable n : nat.
Variable f : nat -> R.
Hypothesis f_opposite : forall i, f (i + n)%nat = - f i.

Lemma rsum_seq_shifted (len : nat) : forall s,
  rsum (map f (seq (s + n) len)) = - rsum (map f (seq s len)).
Proof.
  induction len as [|len IH]; intros s; simpl.
  - lra.
  - rewrite f_opposite.
    change (S (s + n)) with (S s + n)%nat. rewrite IH. lra.
Qed.

Lemma rsum_app (l1 l2 : list R) : rsum (l1 ++ l2) = rsum l1 + rsum l2.
Proof.
  induction l1 as [|x l1 IH]; simpl; [lra | rewrite IH; lra].
Qed.

Lemma rsum_two_halves : rsum (map f (seq 0 (n + n))) = 0.
Proof.
  rewrite seq_app, map_app, rsum_app, (rsum_seq_shifted n 0). lra.
Qed.
End HalfTurnAny.

Lemma ringAngle_opposite_20 (i : nat) :
  ringAngle 20 (i + 10) = ringAngle 20 i + PI.
Proof.
  unfold ringAngle. rewrite plus_INR.
  replace (INR 10) with 10 by (rewrite INR_IZR_INZ; reflexivity).
  rewrite INR_20. field.
Qed.

Lemma cos_full_turn_20 :
  rsum (map (fun i => cos (ringAngle 20 i)) (seq 0 20)) = 0.
Proof.
  apply (rsum_two_halves 10). intros i.
  rewrite ringAngle_opposite_20. apply neg_cos.
Qed.

Lemma sin_full_turn_20 :
  rsum (map (fun i => sin (ringAngle 20 i)) (seq 0 20)) = 0.
Proof.
  apply (rsum_two_halves 10). intros i.
  rewrite ringAngle_opposite_20. apply neg_sin.
Qed.

Lemma vsum_axial (a b : R) (f g : nat -> R) (l : list nat) :
  vsum (map (fun i => Vector3.mk (a * f i) b (a * g i)) l)
  = Vector3.mk (a * rsum (map f l)) (b * INR (List.length l))
               (a * rsum (map g l)).
Proof.
  induction l as [|i l IH].
  - simpl. unfold Vector3.zero. vec.
  - change (vsum (map (fun i => Vector3.mk (a * f i) b (a * g i)) (i :: l)))
      with (Vector3.add (Vector3.mk (a * f i) b (a * g i))
              (vsum (map (fun i => Vector3.mk (a * f i) b (a * g i)) l))).
    rewrite IH. cbn [List.length]. rewrite S_INR. unfold rsum. vec.
Qed.

(** X19. A ring and a Point source on its axis, at height [h] with
    [|h| >= 0.05] and [sqrt (R^2 + h^2) > 0.1], the two alone in the
    collection: the force on the point is
    [k * qc * qp * h / (R^2 + h^2)^1.5] along the axis, and the force on
    the ring, summed over its 20 samples, is exactly the opposite. *)
Theorem ring_axis_action_reaction (c p : ChargeObject) (k h : R) :
  type c = RING -> type p = POINT -> id c <> id p ->
  position p = onAxis c h ->
  0.05 <= Rabs h ->
  sqrt (radius c * radius c + h * h) > 0.1 ->
  let F := k * q c * q p * h
           / ((radius c * radius c + h * h)
              * sqrt (radius c * radius c + h * h)) in
  vector (calculateNetForce p [c; p] k) = Vector3.mk 0 F 0
  /\ vector (calculateNetForce c [c; p] k) = Vector3.mk 0 (- F) 0.
Proof.
  intros Htc Htp Hid Hpos Hh Hfar F.
  set (D := sqrt (radius c * radius c + h * h)) in *.
  assert (D * D = radius c * radius c + h * h) as HD
      by (apply D_squared; exact Hfar).
  assert (otherChargesOf p [c; p] = [c]) as Op.
  { unfold otherChargesOf; simpl. rewrite String.eqb_refl; simpl.
    destruct (String.eqb_spec (id c) (id p)); [congruence | reflexivity]. }
  assert (otherChargesOf c [c; p] = [p]) as Oc.
  { unfold otherChargesOf; simpl. rewrite String.eqb_refl; simpl.
    destruct (String.eqb_spec (id p) (id c)); [congruence | reflexivity]. }
  split.
  - rewrite netForce_centre by (rewrite ?Op, ?Htp; discriminate).
    rewrite Op, Hpos. simpl. rewrite add_zero_r.
    unfold getFieldFromObject.
    rewrite onAxis_center_distance, Htc.
    destruct (Rlt_dec (Rabs h) 0.05); [lra|].
    rewrite ring_loop_onAxis by assumption.
    fold D. unfold F. rewrite <- HD. vec; try (field; lra).
  - unfold calculateNetForce, calculateNetForceWith.
    rewrite Oc, Htc.
    cbv beta iota zeta delta [Nat.eqb List.length orb includesSPHERE].
    cbn [vector].
    set (B := / D * (k * q p / (D * D)) * (q c / INR 20)).
    rewrite (fold_left_ext_all _
               (fun e i =>
                  Vector3.add e
                    (Vector3.mk (radius c * B * cos (ringAngle 20 i))
                                (- h * B)
                                (radius c * B * sin (ringAngle 20 i))))).
    + rewrite fold_left_vadd, add_zero_l.
      rewrite (vsum_axial (radius c * B) (- h * B)
                 (fun i => cos (ringAngle 20 i))
                 (fun i => sin (ringAngle 20 i))).
      rewrite cos_full_turn_20, sin_full_turn_20, length_seq.
      unfold B, F. rewrite INR_20, <- HD. vec; try (field; lra).
    + intros e i. unfold ringForceStepWith.
      rewrite calculateElectricField_single.
      assert (Vector3.subVectors
                (ringSamplePos (position c) (radius c) 20 i) (position p)
              = Vector3.mk (cos (ringAngle 20 i) * radius c) (- h)
                           (sin (ringAngle 20 i) * radius c)) as Hr.
      { rewrite Hpos. unfold onAxis, ringSamplePos, ringAngle. vec. }
      assert (Vector3.length
                (Vector3.subVectors
                   (ringSamplePos (position c) (radius c) 20 i)
                   (position p)) = D) as Hl.
      { rewrite length_subVectors_sym, Hpos.
        apply onAxis_sample_distance. }
      rewrite (point_field _ p k Htp) by (rewrite Hl; lra).
      unfold unitVector. rewrite Hl, Hr. unfold B.
      f_equal. vec; unfold Rdiv; ring.
Qed.

(** X19 at the ring of radius [0.75] and a unit point charge at height [1]
    on its axis, with [k = 1]. *)
Lemma ring_axis_action_reaction_witness :
  let p := mkCharge "p" POINT (Vector3.mk 0 1 0) 1 0.15 None None None
             None in
  vector (calculateNetForce p [ring075; p] 1) = Vector3.mk 0 0.512 0
  /\ vector (calculateNetForce ring075 [ring075; p] 1)
     = Vector3.mk 0 (-0.512) 0.
Proof.
  intros p.
  assert (0.05 <= Rabs 1) as H1 by (rewrite Rabs_R1; lra).
  assert (sqrt (radius ring075 * radius ring075 + 1 * 1) > 0.1) as H2
      by (simpl; rewrite sqrt_25_16; lra).
  destruct (ring_axis_action_reaction ring075 p 1 1 eq_refl eq_refl)
    as [Hp Hc]; try assumption.
  - discriminate.
  - unfold onAxis; simpl. vec.
  - rewrite Hp, Hc. simpl. rewrite sqrt_25_16. split; vec.
Defined.

(** ** Placing objects *)

(** X20. A click on the scene changes nothing in the VIEW and SELECT
    modes.  In the five modes that add a source, the sources already there
    are kept as they are and in order, and one source is appended: at the
    snapped click point, with the new [id], charge [5] or [-5], a positive
    radius, a positive mass, no velocity and not fixed; test points, mode
    and selection are kept.  In ADD_TEST_POINT mode the sources are kept, a
    test point is appended at the snapped click point, it is selected and
    the mode goes back to VIEW. *)
Theorem click_to_place (st : AppState) (gridStep : R) (newId : string)
    (point : Vector3) :
  let st' := clickToPlace st gridStep newId point in
  let snapped := snapToGrid point gridStep in
  (mode st = VIEW \/ mode st = SELECT -> st' = st)
  /\ (mode st = ADD_TEST_POINT ->
      charges st' = charges st
      /\ testPoints st' = testPoints st ++ [mkTestPoint newId snapped]
      /\ mode st' = VIEW /\ selectedId st' = Some newId)
  /\ (mode st <> VIEW -> mode st <> SELECT -> mode st <> ADD_TEST_POINT ->
      exists c,
        charges st' = charges st ++ [c]
        /\ id c = newId /\ position c = snapped
        /\ (q c = 5 \/ q c = -5) /\ 0 < radius c
        /\ (exists m, mass c = Some m /\ 0 < m /\ massOrDefault c = m)
        /\ velocity c = None /\ truthy (isFixed c) = false
        /\ testPoints st' = testPoints st /\ mode st' = mode st
        /\ selectedId st' = selectedId st).
Proof.
  intros st' snapped. unfold st', snapped, clickToPlace, handlePlaceObject.
  destruct st as [cs tps m sel]. cbn [mode charges testPoints selectedId].
  split; [|split].
  - intros [-> | ->]; reflexivity.
  - intros ->. cbn. repeat split.
  - intros H1 H2 H3.
    destruct m; try contradiction; cbn;
      eexists; (split; [reflexivity|]); cbn;
      unfold POINT_RADIUS, RING_RADIUS, SPHERE_RADIUS, massOrDefault;
      cbn; (repeat split; try lra; auto);
      eexists; (repeat split; try reflexivity; try lra);
      apply numberOr_nonzero; lra.
Qed.

(** X20 at the initial scene in ADD_RING mode, grid step [1], click at
    [(0.7, 0, 3.2)]: a ring is appended at [(1, 0, 3)]. *)
Lemma click_to_place_witness :
  exists c,
    charges (clickToPlace (mkApp [c1; c2] [] ADD_RING None) 1 "new"
               (Vector3.mk 0.7 0 3.2))
    = [c1; c2; c]
    /\ position c = Vector3.mk 1 0 3.
Proof.
  destruct (click_to_place (mkApp [c1; c2] [] ADD_RING None) 1 "new"
              (Vector3.mk 0.7 0 3.2)) as (_ & _ & H).
  destruct H as (c & Hc & _ & Hp & _); try discriminate.
  exists c. split; [exact Hc|]. rewrite Hp.
  unfold snapToGrid; simpl.
  rewrite (Math_round_unique (0.7 / 1) 1) by lra.
  rewrite (Math_round_unique (0 / 1) 0) by lra.
  rewrite (Math_round_unique (3.2 / 1) 3) by lra.
  vec.
Defined.

(** ** The observation panel *)

(** X21. The magnitude of the total field, as [calculateElectricField]
    returns it, is at most the sum of the magnitudes of the fields of the
    sources taken one by one (the two kinds of number the observation panel
    shows), and equal to it for a single source. *)
Theorem total_field_le_contributions (pos : Vector3)
    (sources : list ChargeObject) (k : R) :
  magnitude (calculateElectricField pos sources k)
    <= rsum (map (fun c => Vector3.length (getFieldFromObject pos c k))
                 sources)
  /\ (forall c,
        magnitude (calculateElectricField pos [c] k)
        = Vector3.length (getFieldFromObject pos c k)).
Proof.
  split.
  - replace (magnitude (calculateElectricField pos sources k))
      with (Vector3.length (vector (calculateElectricField pos sources k)))
      by reflexivity.
    rewrite calculateElectricField_vsum.
    induction sources as [|c l IH]; simpl.
    + rewrite length_zero. lra.
    + eapply Rle_trans; [apply length_add_le|]. unfold rsum in *. lra.
  - intros c. unfold calculateElectricField; simpl.
    now rewrite add_zero_l.
Qed.
